(** * A shallow embedding of the ssf encryption core and its storage quota

    Sources: [encrypt/encrypt.go], [encrypt/text/text.go],
    [encrypt/stream/stream.go] and the [Storage] quota of the [config]
    package.  Go byte slices and Go strings are both byte sequences and are
    modelled as [list byte]; a nil slice is the empty list.  The
    cryptographic primitives (the AES block function, PBKDF2 and SHAKE256)
    and [filepath.Join] are parameters of the development: every result
    below holds for all of them. *)

From Stdlib Require Import String.
From Stdlib Require Import List Bool Arith Lia ZArith.
From Stdlib Require Import Strings.Byte.
Import ListNotations.

Local Open Scope list_scope.

(** ** Bytes *)

Definition byte_xor (a b : byte) : byte :=
  let '(a0, (a1, (a2, (a3, (a4, (a5, (a6, a7))))))) := Byte.to_bits a in
  let '(b0, (b1, (b2, (b3, (b4, (b5, (b6, b7))))))) := Byte.to_bits b in
  Byte.of_bits (xorb a0 b0, (xorb a1 b1, (xorb a2 b2, (xorb a3 b3,
    (xorb a4 b4, (xorb a5 b5, (xorb a6 b6, xorb a7 b7))))))).

Definition zero_byte : byte := Byte.x00.

Fixpoint bytes_eqb (a b : list byte) : bool :=
  match a, b with
  | [], [] => true
  | x :: a', y :: b' => Byte.eqb x y && bytes_eqb a' b'
  | _, _ => false
  end.

(** [hmac.Equal]: [subtle.ConstantTimeCompare(a, b) == 1], true exactly when
    both slices have the same length and the same bytes. *)
Definition hmac_Equal (a b : list byte) : bool := bytes_eqb a b.

(** ** Errors and results *)

Inductive goerr :=
| ErrEmpty                      (* text.ErrEmpty *)
| ErrCipherBlockLength          (* "invalid decryption cipher block length" *)
| ErrKeySize (n : nat)           (* aes.KeySizeError *)
| ErrRandRead                   (* failure of the entropy source *)
| ErrUnexpectedEOF              (* io.ErrUnexpectedEOF *)
| ErrInvalidByte (b : byte)     (* hex.InvalidByteError *)
| ErrLength                     (* hex.ErrLength *)
| ErrSecret                     (* encrypt.ErrSecret *)
| ErrHash                       (* encrypt.ErrHash *)
| ErrExist                      (* os.ErrExist from O_EXCL *)
| ErrNotExist                   (* os.ErrNotExist *)
| ErrCreateAttempts (n : nat)   (* "can not create new file after %d attempts" *)
| ErrEOF                        (* io.EOF *)
| ErrShortWrite                 (* io.ErrShortWrite *)
| ErrInvalidWrite               (* io's errInvalidWrite *)
| ErrIO (code : nat)            (* any other error of an underlying stream *)
| ErrSizeLimit                  (* config.ErrSizeLimit *)
| ErrWrap (msg : string) (e : goerr)  (* fmt.Errorf("msg: %w", e) *)
| ErrOpaque (msg : string) (e : goerr). (* fmt.Errorf without %w: e is only printed *)

Inductive result (A : Type) :=
| Ok (a : A)
| Err (e : goerr).
Arguments Ok {A} a.
Arguments Err {A} e.

Definition rbind {A B} (m : result A) (k : A -> result B) : result B :=
  match m with Ok a => k a | Err e => Err e end.

Notation "'let*' x := m 'in' k" := (rbind m (fun x => k))
  (at level 200, x name, m at level 100, right associativity).

(** [if err != nil { return fmt.Errorf("msg: %w", err) }] *)
Definition wrap {A} (msg : string) (m : result A) : result A :=
  match m with Ok a => Ok a | Err e => Err (ErrWrap msg e) end.

(** ** encoding/hex *)

Definition hextable : list byte := list_byte_of_string "0123456789abcdef".

Definition hex_digit (n : N) : byte := nth (N.to_nat n) hextable zero_byte.

Definition hex_encode_byte (b : byte) : list byte :=
  [hex_digit (N.div (Byte.to_N b) 16); hex_digit (N.modulo (Byte.to_N b) 16)].

(** [hex.EncodeToString] *)
Definition hex_EncodeToString (src : list byte) : list byte :=
  flat_map hex_encode_byte src.

(** [fromHexChar]: the value of an ASCII hex digit, both cases accepted. *)
Definition fromHexChar (c : byte) : option N :=
  let n := Byte.to_N c in
  if andb (N.leb 48 n) (N.leb n 57) then Some (n - 48)%N
  else if andb (N.leb 97 n) (N.leb n 102) then Some (n - 97 + 10)%N
  else if andb (N.leb 65 n) (N.leb n 70) then Some (n - 65 + 10)%N
  else None.

Definition byte_of_nibbles (a b : N) : byte :=
  match Byte.of_N (a * 16 + b)%N with Some c => c | None => zero_byte end.

(** [hex.DecodeString]: pairs are decoded left to right; an invalid digit
    reports [InvalidByteError] for the first offending character of its pair,
    an odd trailing digit reports [InvalidByteError] when it is not a hex
    digit and [ErrLength] otherwise. *)
Fixpoint hex_DecodeString (src : list byte) : result (list byte) :=
  match src with
  | [] => Ok []
  | [p] =>
      match fromHexChar p with
      | None => Err (ErrInvalidByte p)
      | Some _ => Err ErrLength
      end
  | p :: q :: rest =>
      match fromHexChar p, fromHexChar q with
      | None, _ => Err (ErrInvalidByte p)
      | _, None => Err (ErrInvalidByte q)
      | Some a, Some b =>
          let* r := hex_DecodeString rest in Ok (byte_of_nibbles a b :: r)
      end
  end.

(** ** The envelope [Msg] *)

Record Msg := mkMsg {
  Salt : list byte;
  Value : list byte;
  KeyHash : list byte;
  DataHash : list byte;
  s : list byte;
  v : list byte;
  kh : list byte;
  dh : list byte
}.

Definition msg_raw (s0 v0 kh0 dh0 : list byte) (value : list byte) : Msg :=
  {| Salt := []; Value := value; KeyHash := []; DataHash := [];
     s := s0; v := v0; kh := kh0; dh := dh0 |}.

(** [Msg.encode] *)
Definition encode (withValue : bool) (m : Msg) : Msg :=
  {| Salt := hex_EncodeToString m.(s);
     KeyHash := hex_EncodeToString m.(kh);
     DataHash := hex_EncodeToString m.(dh);
     Value := if withValue then hex_EncodeToString m.(v) else m.(Value);
     s := m.(s); v := m.(v); kh := m.(kh); dh := m.(dh) |}.

(** [Msg.decode]: the decoded fields are written into the receiver; the
    updated message is returned. *)
Definition decode (withValue : bool) (m : Msg) : result Msg :=
  let* s' := wrap "hex decode salt" (hex_DecodeString m.(Salt)) in
  let* kh' := wrap "hex decode key hash" (hex_DecodeString m.(KeyHash)) in
  let* dh' := wrap "hex decode data hash" (hex_DecodeString m.(DataHash)) in
  let* v' := if withValue then wrap "hex decode value" (hex_DecodeString m.(Value))
             else Ok m.(v) in
  Ok {| Salt := m.(Salt); Value := m.(Value); KeyHash := m.(KeyHash);
        DataHash := m.(DataHash); s := s'; v := v'; kh := kh'; dh := dh' |}.

(** ** Sizes of [encrypt.go] and of [crypto/aes] *)

Definition saltSize : nat := 128.
Definition fileNameSize : nat := 64.
Definition fileCreateAttempts : nat := 10.
Definition pbkdf2Iter : N := 65536.
Definition aesKeyLength : nat := 32.
Definition hashLength : nat := 32.
Definition BlockSize : nat := 16.

(** ** The primitives the code calls

    [aes_block k x] is [aes.NewCipher(k).Encrypt] of one block [x];
    [pbkdf2_Key] is [pbkdf2.Key(password, salt, iter, keyLen, sha3.New512)];
    [shake256 data n] is the first [n] bytes of the SHAKE256 output of
    [data] (what [sha3.ShakeSum256] writes into an [n]-byte buffer and what a
    [sha3.ShakeHash] that absorbed [data] yields on reads); [filepath_Join] is
    [filepath.Join]. *)
Record Primitives := {
  aes_block : list byte -> list byte -> list byte;
  pbkdf2_Key : list byte -> list byte -> N -> nat -> list byte;
  shake256 : list byte -> nat -> list byte;
  filepath_Join : list byte -> list byte -> list byte
}.

(** ** The world: entropy and files

    [crypto/rand] is an entropy pool that reads consume; the file system maps
    paths to file contents. *)
Record World := mkWorld {
  w_files : list (list byte * list byte);
  w_rand : list byte
}.

Definition M (A : Type) : Type := World -> World * result A.

Definition ret {A} (a : A) : M A := fun w => (w, Ok a).
Definition throw {A} (e : goerr) : M A := fun w => (w, Err e).
Definition lift {A} (r : result A) : M A := fun w => (w, r).
Definition mbind {A B} (m : M A) (k : A -> M B) : M B :=
  fun w => match m w with
           | (w', Ok a) => k a w'
           | (w', Err e) => (w', Err e)
           end.
Definition wrapM {A} (msg : string) (m : M A) : M A :=
  fun w => let (w', r) := m w in (w', wrap msg r).

Notation "x <- m ;; k" := (mbind m (fun x => k))
  (at level 61, m at next level, right associativity).

Fixpoint lookup_file (fs : list (list byte * list byte)) (path : list byte)
  : option (list byte) :=
  match fs with
  | [] => None
  | (p, c) :: fs' => if bytes_eqb p path then Some c else lookup_file fs' path
  end.

Fixpoint set_file (fs : list (list byte * list byte)) (path c : list byte)
  : list (list byte * list byte) :=
  match fs with
  | [] => [(path, c)]
  | (p, c0) :: fs' =>
      if bytes_eqb p path then (p, c) :: fs' else (p, c0) :: set_file fs' path c
  end.

(** [rand.Read] into an [n]-byte buffer: fills it or fails. *)
Definition rand_Read (n : nat) : M (list byte) :=
  fun w => if n <=? length w.(w_rand)
           then (mkWorld w.(w_files) (skipn n w.(w_rand)), Ok (firstn n w.(w_rand)))
           else (w, Err ErrRandRead).

(** ** Block-cipher modes of [crypto/cipher] *)

Fixpoint upd (l : list byte) (i : nat) (x : byte) : list byte :=
  match l, i with
  | [], _ => []
  | _ :: l', O => x :: l'
  | y :: l', S i' => y :: upd l' i' x
  end.

(** A keystream mode applied byte by byte: [XORKeyStream]. *)
Fixpoint xor_stream {St} (step : St -> byte -> St * byte) (st : St) (src : list byte)
  : St * list byte :=
  match src with
  | [] => (st, [])
  | x :: src' =>
      let (st1, y) := step st x in
      let (st2, ys) := xor_stream step st1 src' in
      (st2, y :: ys)
  end.

(** [cipher.cfb]: [out] holds [b.Encrypt(next)]; [next] collects the
    ciphertext of the current segment. *)
Record cfb := mkCFB {
  cfb_b : list byte -> list byte;
  cfb_next : list byte;
  cfb_out : list byte;
  cfb_outUsed : nat;
  cfb_decrypt : bool
}.

(** [cipher.NewCFBEncrypter] / [cipher.NewCFBDecrypter] on a block-sized IV. *)
Definition newCFB (b : list byte -> list byte) (iv : list byte) (decrypt : bool) : cfb :=
  mkCFB b iv (repeat zero_byte BlockSize) BlockSize decrypt.

Definition cfb_step (x : cfb) (src : byte) : cfb * byte :=
  let x1 := if x.(cfb_outUsed) =? length x.(cfb_out)
            then mkCFB x.(cfb_b) x.(cfb_next) (x.(cfb_b) x.(cfb_next)) 0 x.(cfb_decrypt)
            else x in
  let dst := byte_xor src (nth x1.(cfb_outUsed) x1.(cfb_out) zero_byte) in
  let fed := if x1.(cfb_decrypt) then src else dst in
  (mkCFB x1.(cfb_b) (upd x1.(cfb_next) x1.(cfb_outUsed) fed) x1.(cfb_out)
         (S x1.(cfb_outUsed)) x1.(cfb_decrypt), dst).

(** [cipher.ofb]: [cipher] is the feedback register, [out] the keystream
    bytes produced and not used yet. *)
Record ofb := mkOFB {
  ofb_b : list byte -> list byte;
  ofb_cipher : list byte;
  ofb_out : list byte
}.

(** [cipher.NewOFB] on a block-sized IV. *)
Definition newOFB (b : list byte -> list byte) (iv : list byte) : ofb := mkOFB b iv [].

Definition ofb_step (x : ofb) (src : byte) : ofb * byte :=
  let x1 := match x.(ofb_out) with
            | [] => let c := x.(ofb_b) x.(ofb_cipher) in mkOFB x.(ofb_b) c c
            | _ => x
            end in
  (mkOFB x1.(ofb_b) x1.(ofb_cipher) (tl x1.(ofb_out)),
   byte_xor src (hd zero_byte x1.(ofb_out))).

(** ** io.Reader responses and io.Copy

    A read returns the bytes it delivered ([p[:n]]) and its error.  A
    source is the list of responses of its successive reads; once they are
    delivered it answers [(0, io.EOF)]. *)
Definition read_resp : Type := (list byte * option goerr)%type.

Definition eof_resp : read_resp := ([], Some ErrEOF).

(** The [io.Copy] buffer size. *)
Definition copyBufSize : nat := 32 * 1024.

Inductive copy_next := Continue | Stop (err : option goerr).

(** One iteration of the loop of [io.copyBuffer]. *)
Definition copy_step {S W} (rd : S -> read_resp -> S * read_resp)
  (wr : W -> list byte -> W * (nat * option goerr))
  (st : S) (w : W) (resp : read_resp) : S * W * copy_next :=
  let (st', r) := rd st resp in
  let (buf, er) := r in
  let nr := length buf in
  let '(w', werr) :=
    if 0 <? nr then
      let (w', wres) := wr w buf in
      let (nw0, ew0) := wres in
      let '(nw, ew) := if nr <? nw0
                       then (0, match ew0 with None => Some ErrInvalidWrite | e => e end)
                       else (nw0, ew0) in
      match ew with
      | Some e => (w', Some e)
      | None => if nr =? nw then (w', None) else (w', Some ErrShortWrite)
      end
    else (w, None) in
  match werr with
  | Some e => (st', w', Stop (Some e))
  | None =>
      match er with
      | Some ErrEOF => (st', w', Stop None)
      | Some e => (st', w', Stop (Some e))
      | None => (st', w', Continue)
      end
  end.

(** [io.Copy(dst, src)] for a [dst] without [ReadFrom] and a [src] without
    [WriteTo] (the case of every call in this program): the reader is the
    wrapper [rd] (state [S]) over the responses [src] of the underlying
    source, the writer is [wr] (state [W]).  The result is the error of
    [io.Copy]. *)
Fixpoint io_copy {S W} (rd : S -> read_resp -> S * read_resp)
  (wr : W -> list byte -> W * (nat * option goerr))
  (src : list read_resp) (st : S) (w : W) : S * W * option goerr :=
  match src with
  | [] =>
      let '(st', w', n) := copy_step rd wr st w eof_resp in
      (st', w', match n with Stop e => e | Continue => None end)
  | r :: rs =>
      let '(st', w', n) := copy_step rd wr st w r in
      match n with
      | Stop e => (st', w', e)
      | Continue => io_copy rd wr rs st' w'
      end
  end.

(** A source read without a wrapper. *)
Definition plain_read (st : unit) (r : read_resp) : unit * read_resp := (st, r).

(** A writer that accepts every byte: a [bytes.Buffer] or an [os.File]. *)
Definition buffer_write (c : list byte) (p : list byte) : list byte * (nat * option goerr) :=
  (c ++ p, (length p, None)).

(** The reads [io.Copy] makes on a regular [os.File] with contents [c]. *)
Fixpoint file_reads_aux (fuel : nat) (c : list byte) : list read_resp :=
  match fuel with
  | O => []
  | S f =>
      match c with
      | [] => []
      | _ => (firstn copyBufSize c, None) :: file_reads_aux f (skipn copyBufSize c)
      end
  end.

Definition file_reads (c : list byte) : list read_resp := file_reads_aux (length c) c.

(** ** sha3.ShakeHash: the absorbed input and the number of bytes already
    squeezed out. *)
Record ShakeHash := mkShake {
  sh_absorbed : list byte;
  sh_squeezed : nat
}.

Definition newShake256 : ShakeHash := mkShake [] 0.

(** [Write] (the Go type panics on a write after a read, which no caller
    here does). *)
Definition shake_Write (h : ShakeHash) (p : list byte) : ShakeHash :=
  mkShake (h.(sh_absorbed) ++ p) h.(sh_squeezed).

(** ** StreamSigner *)
Record StreamSigner := mkSigner {
  rHash : option ShakeHash;
  wHash : option ShakeHash;
  rDone : bool;
  wDone : bool
}.

(** [NewStreamSigner(src, dst)]: a side has a hash exactly when its stream
    is not nil. *)
Definition NewStreamSigner (hasSrc hasDst : bool) : StreamSigner :=
  mkSigner (if hasSrc then Some newShake256 else None)
           (if hasDst then Some newShake256 else None) false false.

(** [StreamSigner.Read], given the response of [s.R.Read(p)].  (A signer
    without a source is never read: [s.R.Read] would panic first.) *)
Definition Signer_Read (sg : StreamSigner) (resp : read_resp) : StreamSigner * read_resp :=
  let (data, err) := resp in
  match err with
  | Some e => (sg, ([], Some e))
  | None =>
      (mkSigner (option_map (fun h => shake_Write h data) sg.(rHash)) sg.(wHash)
                (sg.(rDone) || (0 <? length data)) sg.(wDone),
       (data, None))
  end.

(** [StreamSigner.Write(p)], given the response [(n, err)] of [s.W.Write(p)]. *)
Definition Signer_Write (sg : StreamSigner) (p : list byte) (resp : nat * option goerr)
  : StreamSigner * (nat * option goerr) :=
  let (n, err) := resp in
  match err with
  | Some e => (sg, (n, Some e))
  | None =>
      (mkSigner sg.(rHash) (option_map (fun h => shake_Write h (firstn n p)) sg.(wHash))
                sg.(rDone) (sg.(wDone) || (0 <? n)),
       (n, None))
  end.

(** A [StreamSigner] used as the writer of [io.Copy], over the writer [wr]. *)
Definition SignerWriter {W} (wr : W -> list byte -> W * (nat * option goerr))
  (sd : StreamSigner * W) (p : list byte) : (StreamSigner * W) * (nat * option goerr) :=
  let (sg, d) := sd in
  let (d', res) := wr d p in
  let (sg', res') := Signer_Write sg p res in
  ((sg', d'), res').

Section Core.

Variable P : Primitives.

(** [aes.NewCipher] *)
Definition aes_NewCipher (key : list byte) : result (list byte -> list byte) :=
  let n := length key in
  if (n =? 16) || (n =? 24) || (n =? 32) then Ok (aes_block P key) else Err (ErrKeySize n).

(** [encrypt.Random] *)
Definition Random (n : nat) : M (list byte) := rand_Read n.

(** [encrypt.Salt] *)
Definition Salt_ : M (list byte) := wrapM "read rand" (Random saltSize).

(** [encrypt.Hash] *)
Definition Hash (data : list byte) : list byte := shake256 P data hashLength.

(** [encrypt.Key]: the AES key and the fingerprint [Hash(key || salt)]. *)
Definition Key (secret salt : list byte) : list byte * list byte :=
  let key := pbkdf2_Key P secret salt pbkdf2Iter aesKeyLength in
  (key, Hash (key ++ salt)).

(** [text.Encrypt] *)
Definition text_Encrypt (plainText key : list byte) : M (list byte) :=
  match plainText with
  | [] => throw ErrEmpty
  | _ =>
      block <- lift (wrap "new encrypt cipher" (aes_NewCipher key)) ;;
      iv <- wrapM "iv random generation" (rand_Read BlockSize) ;;
      ret (iv ++ snd (xor_stream cfb_step (newCFB block iv false) plainText))
  end.

(** [text.Decrypt] *)
Definition text_Decrypt (cipherText key : list byte) : result (list byte) :=
  match cipherText with
  | [] => Err ErrEmpty
  | _ =>
      if length cipherText <? BlockSize then Err ErrCipherBlockLength
      else
        let* block := wrap "new decrypt cipher" (aes_NewCipher key) in
        let iv := firstn BlockSize cipherText in
        let rest := skipn BlockSize cipherText in
        Ok (snd (xor_stream cfb_step (newCFB block iv true) rest))
  end.

(** [encrypt.Text] *)
Definition Text (secret plainText : list byte) : M Msg :=
  salt <- Salt_ ;;
  let (key, h) := Key secret salt in
  cipherText <- text_Encrypt plainText key ;;
  ret (encode true (msg_raw salt cipherText h [] [])).

(** [encrypt.DecryptText] *)
Definition DecryptText (secret : list byte) (m : Msg) : result (list byte) :=
  let* m := decode true m in
  let (key, hash) := Key secret m.(s) in
  if negb (hmac_Equal hash m.(kh)) then Err ErrSecret
  else text_Decrypt m.(v) key.

(** [ShakeHash.Read] into an [n]-byte buffer: the next [n] output bytes. *)
Definition shake_Read (h : ShakeHash) (n : nat) : ShakeHash * list byte :=
  (mkShake h.(sh_absorbed) (h.(sh_squeezed) + n),
   skipn h.(sh_squeezed) (shake256 P h.(sh_absorbed) (h.(sh_squeezed) + n))).

(** [signerHash]; the hash state after the read is returned with the digest. *)
Definition signerHash (written : bool) (h : option ShakeHash)
  : option ShakeHash * result (list byte) :=
  match h with
  | Some h0 =>
      if negb written then (h, Err ErrHash)
      else let (h1, p) := shake_Read h0 hashLength in (Some h1, Ok p)
  | None => (h, Err ErrHash)
  end.

(** [StreamSigner.ReaderHashSum] *)
Definition ReaderHashSum (sg : StreamSigner) : StreamSigner * result (list byte) :=
  let (h, r) := signerHash sg.(rDone) sg.(rHash) in
  (mkSigner h sg.(wHash) sg.(rDone) sg.(wDone), r).

(** [StreamSigner.WriterHashSum] *)
Definition WriterHashSum (sg : StreamSigner) : StreamSigner * result (list byte) :=
  let (h, r) := signerHash sg.(wDone) sg.(wHash) in
  (mkSigner sg.(rHash) h sg.(rDone) sg.(wDone), r).

(** [cipher.StreamWriter{S, W}.Write] *)
Definition StreamWriter_Write {W} (wr : W -> list byte -> W * (nat * option goerr))
  (sw : ofb * W) (src : list byte) : (ofb * W) * (nat * option goerr) :=
  let (o, w) := sw in
  let (o', c) := xor_stream ofb_step o src in
  let (w', res) := wr w c in
  let (n, err) := res in
  ((o', w'), (n, match err with
                 | None => if n =? length src then None else Some ErrShortWrite
                 | Some e => Some e
                 end)).

(** [cipher.StreamReader{S, R}.Read] over the reader [rd]. *)
Definition StreamReader_Read {S} (rd : S -> read_resp -> S * read_resp)
  (sr : ofb * S) (resp : read_resp) : (ofb * S) * read_resp :=
  let (o, st) := sr in
  let (st', r) := rd st resp in
  let (data, er) := r in
  let (o', d) := xor_stream ofb_step o data in
  ((o', st'), (d, er)).

(** [stream.Encrypt(src, dst, key)]: [src] is the reader [rd] over the
    responses [src], [dst] the writer [wr]. *)
Definition stream_Encrypt {S W} (rd : S -> read_resp -> S * read_resp)
  (src : list read_resp) (st : S)
  (wr : W -> list byte -> W * (nat * option goerr)) (dst : W) (key : list byte)
  : S * W * result unit :=
  match aes_NewCipher key with
  | Err e => (st, dst, Err (ErrWrap "ecrypt cipher" e))
  | Ok block =>
      let iv := repeat zero_byte BlockSize in
      let '(st', (_, dst'), err) :=
        io_copy rd (StreamWriter_Write wr) src st (newOFB block iv, dst) in
      (st', dst', match err with
                  | None => Ok tt
                  | Some e => Err (ErrWrap "copy for ecryption" e)
                  end)
  end.

(** [stream.Decrypt(src, dst, key)].  Its copy error is formatted with
    [%dst], not [%w], so it does not wrap the cause. *)
Definition stream_Decrypt {S W} (rd : S -> read_resp -> S * read_resp)
  (src : list read_resp) (st : S)
  (wr : W -> list byte -> W * (nat * option goerr)) (dst : W) (key : list byte)
  : S * W * result unit :=
  match aes_NewCipher key with
  | Err e => (st, dst, Err (ErrWrap "decrypt cipher" e))
  | Ok block =>
      let iv := repeat zero_byte BlockSize in
      let '((_, st'), dst', err) :=
        io_copy (StreamReader_Read rd) wr src (newOFB block iv, st) dst in
      (st', dst', match err with
                  | None => Ok tt
                  | Some e => Err (ErrOpaque "copy for decryption" e)
                  end)
  end.

(** The loop of [createFile]: [k] attempts left, [name] the current name
    ([""] for a random one).  [os.OpenFile] with [O_CREATE|O_EXCL] fails
    with [os.ErrExist] when the path is taken and creates an empty file
    otherwise. *)
Fixpoint create_attempts (k : nat) (base name : list byte) : M (list byte) :=
  match k with
  | O => throw (ErrCreateAttempts fileCreateAttempts)
  | S k' =>
      nm <- (match name with
             | [] => value <- wrapM "random file name" (Random fileNameSize) ;;
                     ret (hex_EncodeToString value)
             | _ => ret name
             end) ;;
      let fullPath := filepath_Join P base nm in
      fun w => match lookup_file w.(w_files) fullPath with
               | Some _ => create_attempts k' base [] w
               | None => (mkWorld (set_file w.(w_files) fullPath []) w.(w_rand), Ok fullPath)
               end
  end.

(** [createFile(base, name)]; returns the path of the created file. *)
Definition createFile (base name : list byte) : M (list byte) :=
  create_attempts (match name with [] => fileCreateAttempts | _ => 1 end) base name.

(** [encrypt.File(secret, src, base, name)]; [src] lists the responses of
    the source reader.  The ciphertext is what [stream.Encrypt] writes to
    the new file, which stays in place when a later step fails. *)
Definition File (secret : list byte) (src : list read_resp) (base name : list byte) : M Msg :=
  salt <- Salt_ ;;
  path <- wrapM "open file for ecryption" (createFile base name) ;;
  let (key, h) := Key secret salt in
  let signReader := NewStreamSigner true false in
  fun w =>
    let '(sg, contents, r) := stream_Encrypt Signer_Read src signReader buffer_write [] key in
    let w1 := mkWorld (set_file w.(w_files) path contents) w.(w_rand) in
    match r with
    | Err e => (w1, Err e)
    | Ok _ =>
        match snd (ReaderHashSum sg) with
        | Err e => (w1, Err e)
        | Ok dh0 => (w1, Ok (encode false (msg_raw salt [] h dh0 path)))
        end
    end.

(** [encrypt.DecryptFile(secret, m, dst)] against the files of [w]; the
    writer [wr] with state [dst] is the destination.  Returns the final
    state of the destination and the error. *)
Definition DecryptFile {W} (secret : list byte) (m : Msg)
  (wr : W -> list byte -> W * (nat * option goerr)) (dst : W) (w : World)
  : W * result unit :=
  match decode false m with
  | Err e => (dst, Err e)
  | Ok m =>
      match lookup_file w.(w_files) m.(Value) with
      | None => (dst, Err (ErrWrap "open file for decryption" ErrNotExist))
      | Some contents =>
          let (key, hash) := Key secret m.(s) in
          if negb (hmac_Equal hash m.(kh)) then (dst, Err ErrSecret)
          else
            let signWriter := NewStreamSigner false true in
            let '(_, (sg, dst'), r) :=
              stream_Decrypt plain_read (file_reads contents) tt (SignerWriter wr)
                (signWriter, dst) key in
            match r with
            | Err e => (dst', Err e)
            | Ok _ =>
                match snd (WriterHashSum sg) with
                | Err e => (dst', Err e)
                | Ok dh' => if negb (hmac_Equal dh' m.(dh)) then (dst', Err ErrHash)
                            else (dst', Ok tt)
                end
            end
      end
  end.

End Core.

(** ** The storage quota ([config.Storage])

    Go's [int64] arithmetic wraps around; [int64_wrap] maps an integer to
    its two's-complement value on 64 bits. *)
Definition int64_wrap (z : Z) : Z := ((z + 2 ^ 63) mod 2 ^ 64 - 2 ^ 63)%Z.

(** The fields of [Storage] the quota uses: [Dir], [Size] (megabytes in the
    configuration, bytes after [initLimits]) and the unexported [limit]
    (the reserved bytes). *)
Record Storage := mkStorage {
  Dir : list byte;
  Size : Z;
  limit : Z
}.

(** [Storage.Limit(v)], under the mutex. *)
Definition Limit (st : Storage) (v0 : Z) : Storage * result unit :=
  let lim := int64_wrap (st.(limit) + v0) in
  if (lim >? st.(Size))%Z
  then (st, Err (ErrWrap "storage limit is reached" ErrSizeLimit))
  else (mkStorage st.(Dir) st.(Size) lim, Ok tt).

(** The type bits of a directory entry. *)
Inductive FileMode := ModeRegular | ModeDir | ModeSymlink | ModeOther.

(** An [fs.DirEntry]: its type and the result of [Info()] (the size of the
    entry, not following symlinks, or the error). *)
Record DirEntry := mkDirEntry {
  de_name : list byte;
  de_mode : FileMode;
  de_info : result Z
}.

Definition IsDir (e : DirEntry) : bool :=
  match e.(de_mode) with ModeDir => true | _ => false end.

(** The loop of [initLimits] over the entries. *)
Fixpoint sum_entries (st : Storage) (es : list DirEntry) : Storage * result unit :=
  match es with
  | [] => (st, Ok tt)
  | e :: es' =>
      if IsDir e then sum_entries st es'
      else match e.(de_info) with
           | Err err => (st, Err err)
           | Ok sz => sum_entries (mkStorage st.(Dir) st.(Size) (int64_wrap (st.(limit) + sz))) es'
           end
  end.

(** [Storage.initLimits], under the mutex; [readDir] is [os.ReadDir]. *)
Definition initLimits (st : Storage) (readDir : list byte -> result (list DirEntry))
  : Storage * result unit :=
  match readDir st.(Dir) with
  | Err e => (st, Err e)
  | Ok es => sum_entries (mkStorage st.(Dir) (int64_wrap (Z.shiftl st.(Size) 20)) st.(limit)) es
  end.

(** ** Predicates used in the statements *)

(** A string over the lowercase hex alphabet, of even length. *)
Definition lower_hex (x : list byte) : Prop :=
  Forall (fun c => In c hextable) x /\ Nat.Even (length x).

(** One byte of [hex.EncodeToString] decodes back to itself. *)
Definition hex_byte_check (b : byte) : bool :=
  match hex_encode_byte b with
  | [c1; c2] =>
      match fromHexChar c1, fromHexChar c2 with
      | Some x, Some y => Byte.eqb (byte_of_nibbles x y) b
      | _, _ => false
      end
  | _ => false
  end.

(** The bytes of a source whose reads all succeed. *)
Definition chunks_data (src : list read_resp) : list byte := concat (map fst src).

(** An operation on a [StreamSigner]: a read, given the response of the
    wrapped reader, or a write of [p], given the response of the wrapped
    writer. *)
Inductive sig_event :=
| EvRead (resp : read_resp)
| EvWrite (p : list byte) (resp : nat * option goerr).

Fixpoint run_signer (sg : StreamSigner) (evs : list sig_event) : StreamSigner :=
  match evs with
  | [] => sg
  | EvRead r :: evs' => run_signer (fst (Signer_Read sg r)) evs'
  | EvWrite p r :: evs' => run_signer (fst (Signer_Write sg p r)) evs'
  end.

(** The bytes that flowed through the read side: those of the reads that
    succeeded. *)
Fixpoint read_flow (evs : list sig_event) : list byte :=
  match evs with
  | [] => []
  | EvRead (data, None) :: evs' => data ++ read_flow evs'
  | _ :: evs' => read_flow evs'
  end.

(** The bytes that flowed through the write side: [p[:n]] for each write
    that succeeded with [n] bytes. *)
Fixpoint write_flow (evs : list sig_event) : list byte :=
  match evs with
  | [] => []
  | EvWrite p (n, None) :: evs' => firstn n p ++ write_flow evs'
  | _ :: evs' => write_flow evs'
  end.

(** The [io.Writer] contract: a write reports at most [len(p)] bytes. *)
Definition write_ok (ev : sig_event) : Prop :=
  match ev with
  | EvWrite p (n, _) => n <= length p
  | EvRead _ => True
  end.

(** The finalized digest of a side through which [fl] flowed. *)
Definition side_digest (P : Primitives) (fl : list byte) : result (list byte) :=
  match fl with
  | [] => Err ErrHash
  | _ => Ok (Hash P fl)
  end.

(** The run of [io.Copy] of two [io_copy] calls agree on whether it went on
    and whether it failed. *)
Definition copy_next_agree (n1 n2 : copy_next) : Prop :=
  match n1, n2 with
  | Continue, Continue => True
  | Stop e1, Stop e2 => (e1 = None <-> e2 = None)
  | _, _ => False
  end.

(** An encrypting and a decrypting CFB state at the same point of the
    stream. *)
Definition cfb_pair (x y : cfb) : Prop :=
  x.(cfb_b) = y.(cfb_b) /\ x.(cfb_next) = y.(cfb_next) /\ x.(cfb_out) = y.(cfb_out) /\
  x.(cfb_outUsed) = y.(cfb_outUsed) /\ x.(cfb_decrypt) = false /\ y.(cfb_decrypt) = true.

(** A value of Go's [int64]. *)
Definition is_int64 (z : Z) : Prop := (- 2 ^ 63 <= z < 2 ^ 63)%Z.

(** The sizes [initLimits] adds up: those of the entries that are not
    directories. *)
Fixpoint nondir_size_sum (es : list DirEntry) : Z :=
  match es with
  | [] => 0%Z
  | e :: es' =>
      ((if IsDir e then 0 else match e.(de_info) with Ok sz => sz | Err _ => 0 end)
       + nondir_size_sum es')%Z
  end.

(** [Info()] succeeds on an entry that is not a directory. *)
Definition info_ok (e : DirEntry) : Prop :=
  IsDir e = false -> exists sz, e.(de_info) = Ok sz.

(** A character [hex.DecodeString] accepts as a digit. *)
Definition is_hex_digit (c : byte) : Prop := fromHexChar c <> None.

(** ** Concrete instances

    Stand-in primitives with the right lengths, to run the definitions on
    concrete inputs. *)
Definition toy_block (k x : list byte) : list byte := firstn BlockSize (k ++ x).
Definition toy_kdf (pw salt : list byte) (_ : N) (n : nat) : list byte :=
  firstn n (pw ++ salt ++ repeat zero_byte n).
Definition toy_shake (data : list byte) (n : nat) : list byte :=
  firstn n (data ++ repeat Byte.x01 n).
Definition toy_join (base name : list byte) : list byte := base ++ [Byte.x2f] ++ name.

Definition toyP : Primitives :=
  {| aes_block := toy_block; pbkdf2_Key := toy_kdf; shake256 := toy_shake;
     filepath_Join := toy_join |}.

Definition ex_world : World := mkWorld [] (repeat Byte.x2a 200).
Definition ex_secret : list byte := list_byte_of_string "secret".
Definition ex_secret2 : list byte := list_byte_of_string "other".
Definition ex_plain : list byte := list_byte_of_string "hello".
Definition ex_key : list byte := repeat Byte.x07 32.
Definition ex_dir : list byte := list_byte_of_string "files".
Definition ex_src : list read_resp :=
  [(list_byte_of_string "abc", None); (list_byte_of_string "de", None)].

(** A run of [File] on [ex_src] into the file [ex_dir/data]. *)
Definition ex_file_run : World * result Msg :=
  File toyP ex_secret ex_src ex_dir (list_byte_of_string "data") ex_world.
Definition ex_file_world : World := fst ex_file_run.
Definition ex_file_msg : Msg :=
  match snd ex_file_run with Ok m => m | Err _ => msg_raw [] [] [] [] [] end.

(** A run of [Text] on [ex_plain]. *)
Definition ex_text_run : World * result Msg := Text toyP ex_secret ex_plain ex_world.
Definition ex_text_world : World := fst ex_text_run.
Definition ex_text_msg : Msg :=
  match snd ex_text_run with Ok m => m | Err _ => msg_raw [] [] [] [] [] end.

Definition ex_events : list sig_event :=
  [EvRead (ex_plain, None); EvWrite ex_key (5, None); EvRead ([], Some ErrEOF);
   EvWrite ex_plain (0, Some ErrShortWrite)].

Definition regular (name : string) (sz : Z) : DirEntry :=
  mkDirEntry (list_byte_of_string name) ModeRegular (Ok sz).
Definition subdir (name : string) : DirEntry :=
  mkDirEntry (list_byte_of_string name) ModeDir (Ok 4096%Z).
Definition symlink (name : string) (sz : Z) : DirEntry :=
  mkDirEntry (list_byte_of_string name) ModeSymlink (Ok sz).

Definition ex_entries : list DirEntry :=
  [regular "a" 100; subdir "sub"; regular "b" 250; regular "c" 5].

(** A world where [files/data] already exists. *)
Definition ex_data_name : list byte := list_byte_of_string "data".
Definition ex_world_taken : World :=
  mkWorld [(toy_join ex_dir ex_data_name, list_byte_of_string "old")] (repeat Byte.x2a 200).

(** A run of [createFile] with a random name. *)
Definition ex_create_run : World * result (list byte) := createFile toyP ex_dir [] ex_world_taken.

(** The envelope of [ex_file_run] with its data hash replaced. *)
Definition ex_file_msg_tampered : Msg :=
  mkMsg (Salt ex_file_msg) (Value ex_file_msg) (KeyHash ex_file_msg)
        (hex_EncodeToString (repeat Byte.x00 hashLength))
        (s ex_file_msg) (v ex_file_msg) (kh ex_file_msg) (dh ex_file_msg).

(** A key of an invalid size and a 16-byte key. *)
Definition ex_bad_key : list byte := repeat Byte.x07 5.
Definition ex_key16 : list byte := repeat Byte.x07 16.

(** A regular file whose [Info()] fails. *)
Definition ex_bad_entry : DirEntry :=
  mkDirEntry (list_byte_of_string "gone") ModeRegular (Err ErrNotExist).

(** An envelope whose hex fields are lowercase. *)
Definition ex_hex_msg : Msg :=
  mkMsg (list_byte_of_string "00ff") (list_byte_of_string "c0de")
        (list_byte_of_string "ab") [] [] [] [] [].

(** ** Auxiliary lemmas *)

Lemma xorb_cancel_r (x y : bool) : xorb (xorb x y) y = x.
Proof. destruct x, y; reflexivity. Qed.

Lemma byte_xor_involutive (a k : byte) : byte_xor (byte_xor a k) k = a.
Proof.
  unfold byte_xor.
  destruct (Byte.to_bits a) as (a0,(a1,(a2,(a3,(a4,(a5,(a6,a7))))))) eqn:Ha.
  destruct (Byte.to_bits k) as (b0,(b1,(b2,(b3,(b4,(b5,(b6,b7))))))) eqn:Hk.
  rewrite Byte.to_bits_of_bits.
  rewrite !xorb_cancel_r.
  rewrite <- Ha. apply Byte.of_bits_to_bits.
Qed.

Lemma bytes_eqb_refl (l : list byte) : bytes_eqb l l = true.
Proof.
  induction l as [|x l IH]; simpl; [reflexivity|].
  rewrite IH, andb_true_r. apply Byte.byte_dec_lb. reflexivity.
Qed.

Lemma bytes_eqb_eq (a b : list byte) : bytes_eqb a b = true <-> a = b.
Proof.
  split.
  - revert b; induction a as [|x a IH]; intros [|y b]; simpl; try discriminate; auto.
    intros H. apply andb_true_iff in H as [H1 H2].
    apply Byte.byte_dec_bl in H1. f_equal; auto.
  - intros ->. apply bytes_eqb_refl.
Qed.

Lemma hex_byte_check_ok (b : byte) : hex_byte_check b = true.
Proof. destruct b; reflexivity. Qed.

Lemma hex_encode_byte_spec (b : byte) :
  exists c1 c2 x y, hex_encode_byte b = [c1; c2] /\ fromHexChar c1 = Some x /\
                    fromHexChar c2 = Some y /\ byte_of_nibbles x y = b.
Proof.
  pose proof (hex_byte_check_ok b) as H. unfold hex_byte_check in H.
  destruct (hex_encode_byte b) as [|c1 [|c2 [|c3 l]]]; try discriminate.
  destruct (fromHexChar c1) as [x|] eqn:H1; [|discriminate].
  destruct (fromHexChar c2) as [y|] eqn:H2; [|discriminate].
  apply Byte.byte_dec_bl in H. exists c1, c2, x, y. repeat split; first [assumption | reflexivity].
Qed.

Lemma hex_decode_encode (l : list byte) :
  hex_DecodeString (hex_EncodeToString l) = Ok l.
Proof.
  induction l as [|b l IH]; [reflexivity|].
  destruct (hex_encode_byte_spec b) as (c1 & c2 & x & y & He & H1 & H2 & Hb).
  change (hex_EncodeToString (b :: l)) with (hex_encode_byte b ++ hex_EncodeToString l).
  rewrite He. cbn -[hex_EncodeToString fromHexChar byte_of_nibbles].
  rewrite H1, H2, IH. cbn. rewrite Hb. reflexivity.
Qed.

Lemma hex_encode_byte_lower (b : byte) :
  forallb (fun c => existsb (Byte.eqb c) hextable) (hex_encode_byte b) = true.
Proof. destruct b; reflexivity. Qed.

Lemma hex_encode_byte_length (b : byte) : length (hex_encode_byte b) = 2.
Proof. reflexivity. Qed.

Lemma hex_encode_lower (l : list byte) :
  Forall (fun c => In c hextable) (hex_EncodeToString l).
Proof.
  induction l as [|b l IH]; [constructor|].
  change (hex_EncodeToString (b :: l)) with (hex_encode_byte b ++ hex_EncodeToString l).
  apply Forall_app; split; [|exact IH].
  rewrite Forall_forall. intros c Hc.
  pose proof (proj1 (forallb_forall _ _) (hex_encode_byte_lower b) c Hc) as Hc'.
  apply existsb_exists in Hc' as (d & Hd & Heq).
  apply Byte.byte_dec_bl in Heq. subst d. exact Hd.
Qed.

Lemma hex_encode_length (l : list byte) : length (hex_EncodeToString l) = 2 * length l.
Proof.
  induction l as [|b l IH]; [reflexivity|].
  change (hex_EncodeToString (b :: l)) with (hex_encode_byte b ++ hex_EncodeToString l).
  rewrite length_app, hex_encode_byte_length, IH. simpl. lia.
Qed.

Lemma decode_encode (withValue : bool) (m : Msg) :
  decode withValue (encode withValue m) = Ok (encode withValue m).
Proof.
  unfold decode, encode; cbn -[hex_DecodeString hex_EncodeToString].
  rewrite !hex_decode_encode. cbn.
  destruct withValue; cbn; [rewrite hex_decode_encode|]; reflexivity.
Qed.

(** Encryption followed by decryption with two keystream modes related by
    [R] gives the input back. *)
Lemma xor_stream_inverse {A B} (f : A -> byte -> A * byte) (g : B -> byte -> B * byte)
  (R : A -> B -> Prop)
  (Hstep : forall x y a, R x y ->
     snd (g y (snd (f x a))) = a /\ R (fst (f x a)) (fst (g y (snd (f x a))))) :
  forall p x y, R x y -> snd (xor_stream g y (snd (xor_stream f x p))) = p.
Proof.
  induction p as [|a p IH]; intros x y Hxy; [reflexivity|].
  cbn. destruct (f x a) as [x1 c] eqn:Hf.
  destruct (xor_stream f x1 p) as [x2 cs] eqn:Hfs. cbn.
  destruct (g y c) as [y1 a'] eqn:Hg.
  destruct (xor_stream g y1 cs) as [y2 ps] eqn:Hgs. cbn.
  specialize (Hstep x y a Hxy). rewrite Hf in Hstep. cbn in Hstep.
  rewrite Hg in Hstep. cbn in Hstep. destruct Hstep as [-> HR].
  f_equal.
  specialize (IH x1 y1 HR). rewrite Hfs in IH. cbn in IH. rewrite Hgs in IH. exact IH.
Qed.

Lemma cfb_roundtrip (b : list byte -> list byte) (iv p : list byte) :
  snd (xor_stream cfb_step (newCFB b iv true)
         (snd (xor_stream cfb_step (newCFB b iv false) p))) = p.
Proof.
  apply (xor_stream_inverse cfb_step cfb_step cfb_pair).
  - intros [b1 n1 o1 u1 d1] [b2 n2 o2 u2 d2] a (Hb & Hn & Ho & Hu & Hd1 & Hd2).
    cbn in *; subst.
    unfold cfb_step; cbn.
    destruct (u2 =? length o2); cbn;
      rewrite byte_xor_involutive; repeat split; reflexivity.
  - repeat split.
Qed.

(** The OFB keystream does not depend on the data. *)
Lemma ofb_step_state (x : ofb) (a c : byte) : fst (ofb_step x a) = fst (ofb_step x c).
Proof. reflexivity. Qed.

(** Symbolic evaluation that keeps the sizes and the list slicing folded. *)
Ltac csimpl := cbn -[saltSize BlockSize fileNameSize hashLength aesKeyLength copyBufSize
                     firstn skipn Nat.leb Nat.ltb length hex_EncodeToString bytes_eqb].
Tactic Notation "csimpl" "in" hyp(H) :=
  cbn -[saltSize BlockSize fileNameSize hashLength aesKeyLength copyBufSize
        firstn skipn Nat.leb Nat.ltb length hex_EncodeToString bytes_eqb] in H.

Lemma firstn_app_exact {A} (n : nat) (l1 l2 : list A) :
  length l1 = n -> firstn n (l1 ++ l2) = l1.
Proof. intros <-. induction l1 as [|x l1 IH]; cbn; [reflexivity|]. now rewrite IH. Qed.

Lemma skipn_app_exact {A} (n : nat) (l1 l2 : list A) :
  length l1 = n -> skipn n (l1 ++ l2) = l2.
Proof. intros <-. induction l1 as [|x l1 IH]; cbn; [reflexivity|]. exact IH. Qed.

Lemma aes_NewCipher_32 (P : Primitives) (key : list byte) :
  length key = 32 -> aes_NewCipher P key = Ok (aes_block P key).
Proof. intros H. unfold aes_NewCipher. rewrite H. reflexivity. Qed.

Lemma aes_NewCipher_inv (P : Primitives) (key : list byte) blk :
  aes_NewCipher P key = Ok blk -> blk = aes_block P key.
Proof.
  unfold aes_NewCipher. destruct (_ || _); intros H; inversion H; reflexivity.
Qed.

Lemma hmac_Equal_refl (a : list byte) : hmac_Equal a a = true.
Proof. apply bytes_eqb_refl. Qed.

(** What a successful [Text] returns. *)
Lemma Text_inv (P : Primitives) (secret p : list byte) (w w' : World) (m : Msg) :
  Text P secret p w = (w', Ok m) ->
  exists salt iv, length iv = BlockSize /\ p <> [] /\
    aes_NewCipher P (fst (Key P secret salt)) = Ok (aes_block P (fst (Key P secret salt))) /\
    m = encode true (msg_raw salt
          (iv ++ snd (xor_stream cfb_step
                        (newCFB (aes_block P (fst (Key P secret salt))) iv false) p))
          (snd (Key P secret salt)) [] []).
Proof.
  intros H.
  unfold Text, mbind, Salt_, wrapM, Random, rand_Read, lift, throw, ret in H.
  destruct (saltSize <=? length (w_rand w)) eqn:E1; csimpl in H; [|discriminate].
  unfold text_Encrypt, mbind, lift, throw, ret, wrapM, rand_Read in H.
  destruct p as [|a p']; [discriminate|].
  destruct (aes_NewCipher P _) as [blk|e] eqn:HC; csimpl in H; [|discriminate].
  match type of H with context [if ?c then _ else _] => destruct c eqn:E2 end;
    csimpl in H; [|discriminate].
  injection H as _ <-.
  pose proof (aes_NewCipher_inv _ _ _ HC) as ->.
  apply Nat.leb_le in E2.
  exists (firstn saltSize (w_rand w)), (firstn BlockSize (skipn saltSize (w_rand w))).
  split; [|split; [discriminate|split; [exact HC|reflexivity]]].
  rewrite length_firstn. lia.
Qed.

Lemma DecryptText_encode (P : Primitives) (secret salt iv c : list byte) :
  length iv = BlockSize ->
  aes_NewCipher P (fst (Key P secret salt)) = Ok (aes_block P (fst (Key P secret salt))) ->
  DecryptText P secret (encode true (msg_raw salt (iv ++ c) (snd (Key P secret salt)) [] []))
  = Ok (snd (xor_stream cfb_step (newCFB (aes_block P (fst (Key P secret salt))) iv true) c)).
Proof.
  intros Hiv HC.
  unfold DecryptText. rewrite decode_encode. cbn [rbind].
  change (s (encode true (msg_raw salt (iv ++ c) (snd (Key P secret salt)) [] []))) with salt.
  change (kh (encode true (msg_raw salt (iv ++ c) (snd (Key P secret salt)) [] [])))
    with (snd (Key P secret salt)).
  change (v (encode true (msg_raw salt (iv ++ c) (snd (Key P secret salt)) [] []))) with (iv ++ c).
  destruct (Key P secret salt) as [key h]. cbn [fst snd] in *.
  rewrite hmac_Equal_refl. cbn [negb].
  unfold text_Decrypt.
  destruct iv as [|i0 iv']; [discriminate|]. cbn [app].
  replace (length (i0 :: iv' ++ c) <? BlockSize) with false.
  2:{ symmetry. apply Nat.ltb_ge. cbn [length] in *. rewrite length_app. lia. }
  rewrite HC. cbn [rbind wrap].
  rewrite app_comm_cons, firstn_app_exact, skipn_app_exact by exact Hiv.
  reflexivity.
Qed.
Lemma Text_succeeds (P : Primitives)
  (Hkdf : forall pw salt it n, length (pbkdf2_Key P pw salt it n) = n)
  (secret p : list byte) (w : World) :
  p <> [] -> saltSize + BlockSize <= length (w_rand w) ->
  exists w' m, Text P secret p w = (w', Ok m).
Proof.
  intros Hp Hw.
  unfold Text, mbind, Salt_, wrapM, Random, rand_Read, lift, throw, ret.
  replace (saltSize <=? length (w_rand w)) with true by (symmetry; apply Nat.leb_le; lia).
  csimpl.
  unfold text_Encrypt, mbind, lift, throw, ret, wrapM, rand_Read.
  destruct p as [|a p']; [congruence|].
  rewrite aes_NewCipher_32 by (rewrite Hkdf; reflexivity). csimpl.
  replace (BlockSize <=? length (skipn saltSize (w_rand w))) with true
    by (symmetry; apply Nat.leb_le; rewrite length_skipn; lia).
  csimpl. eauto.
Qed.

Lemma ltb0_length_app (a b : list byte) :
  (0 <? length (a ++ b)) = (0 <? length a) || (0 <? length b).
Proof. rewrite length_app. destruct (length a), (length b); reflexivity. Qed.

(** A signer whose sides have absorbed [ra] and [wa] absorbs what flows. *)
Lemma run_signer_spec (evs : list sig_event) (ra wa : list byte) :
  Forall write_ok evs ->
  run_signer (mkSigner (Some (mkShake ra 0)) (Some (mkShake wa 0))
                       (0 <? length ra) (0 <? length wa)) evs
  = mkSigner (Some (mkShake (ra ++ read_flow evs) 0)) (Some (mkShake (wa ++ write_flow evs) 0))
             (0 <? length (ra ++ read_flow evs)) (0 <? length (wa ++ write_flow evs)).
Proof.
  revert ra wa. induction evs as [|ev evs IH]; intros ra wa Hok.
  - cbn. rewrite !app_nil_r. reflexivity.
  - inversion Hok as [|? ? Hev Hrest]; subst.
    destruct ev as [[data [e|]] | p [n [e|]]];
      cbn [run_signer Signer_Read Signer_Write fst read_flow write_flow option_map
           rHash wHash rDone wDone];
      unfold shake_Write; cbn [sh_absorbed sh_squeezed].
    + apply IH; assumption.
    + rewrite <- ltb0_length_app, IH by assumption. rewrite !app_assoc. reflexivity.
    + apply IH; assumption.
    + cbn in Hev.
      replace (0 <? n) with (0 <? length (firstn n p))
        by (rewrite length_firstn; f_equal; lia).
      rewrite <- ltb0_length_app, IH by assumption. rewrite !app_assoc. reflexivity.
Qed.

Lemma xor_stream_length {St} (step : St -> byte -> St * byte) (st : St) (l : list byte) :
  length (snd (xor_stream step st l)) = length l.
Proof.
  revert st; induction l as [|x l IH]; intros st; [reflexivity|].
  cbn. destruct (step st x) as [st1 y]. specialize (IH st1).
  destruct (xor_stream step st1 l) as [st2 ys]. cbn in *. now rewrite IH.
Qed.

Lemma xor_stream_app {St} (step : St -> byte -> St * byte) (st : St) (a b : list byte) :
  xor_stream step st (a ++ b) =
  (fst (xor_stream step (fst (xor_stream step st a)) b),
   snd (xor_stream step st a) ++ snd (xor_stream step (fst (xor_stream step st a)) b)).
Proof.
  revert st; induction a as [|x a IH]; intros st; cbn.
  - destruct (xor_stream step st b); reflexivity.
  - destruct (step st x) as [st1 y]. rewrite IH.
    destruct (xor_stream step st1 a) as [st2 ys]. cbn.
    destruct (xor_stream step st2 b) as [st3 zs]. reflexivity.
Qed.

(** OFB is an involution: the keystream does not depend on the data. *)
Lemma ofb_involutive (o : ofb) (b : list byte) :
  snd (xor_stream ofb_step o (snd (xor_stream ofb_step o b))) = b.
Proof.
  apply (xor_stream_inverse ofb_step ofb_step eq); [|reflexivity].
  intros x y a <-. unfold ofb_step.
  destruct (ofb_out x); cbn; rewrite byte_xor_involutive; split; reflexivity.
Qed.

(** One iteration of [io.Copy] in [stream.Encrypt] (keystream on the writer
    side) and in [stream.Decrypt] (keystream on the reader side). *)
Lemma copy_step_enc_dec {S W} (rd : S -> read_resp -> S * read_resp)
  (wr : W -> list byte -> W * (nat * option goerr)) (st : S) (o : ofb) (w : W)
  (r : read_resp) :
  match copy_step rd (StreamWriter_Write wr) st (o, w) r,
        copy_step (StreamReader_Read rd) wr (o, st) w r with
  | (st1, (o1, w1), n1), ((o2, st2), w2, n2) =>
      st1 = st2 /\ o1 = o2 /\ w1 = w2 /\ copy_next_agree n1 n2
  end.
Proof.
  unfold copy_step, StreamReader_Read, StreamWriter_Write. cbv zeta.
  destruct (rd st r) as [st' [buf er]].
  pose proof (xor_stream_length ofb_step o buf) as Hl.
  destruct (xor_stream ofb_step o buf) as [o' c] eqn:X. cbn [snd] in Hl. rewrite Hl.
  destruct (0 <? length buf) eqn:Hpos.
  - destruct (wr w c) as [w' [n err]]. rewrite (Nat.eqb_sym n).
    destruct err as [e|], (length buf <? n), (length buf =? n), er as [[]|];
      cbn; repeat split; try tauto; discriminate.
  - assert (buf = []) as -> by (destruct buf; [reflexivity|discriminate]).
    cbn in X. injection X as <- <-.
    destruct er as [[]|]; cbn; repeat split; tauto.
Qed.

Lemma io_copy_enc_dec {S W} (rd : S -> read_resp -> S * read_resp)
  (wr : W -> list byte -> W * (nat * option goerr)) (src : list read_resp) :
  forall (st : S) (o : ofb) (w : W),
  match io_copy rd (StreamWriter_Write wr) src st (o, w),
        io_copy (StreamReader_Read rd) wr src (o, st) w with
  | (st1, (o1, w1), e1), ((o2, st2), w2, e2) =>
      st1 = st2 /\ o1 = o2 /\ w1 = w2 /\ (e1 = None <-> e2 = None)
  end.
Proof.
  induction src as [|r rs IH]; intros st o w; cbn [io_copy].
  - pose proof (copy_step_enc_dec rd wr st o w eof_resp) as H.
    destruct (copy_step rd (StreamWriter_Write wr) st (o, w) eof_resp) as [[st1 [o1 w1]] n1].
    destruct (copy_step (StreamReader_Read rd) wr (o, st) w eof_resp) as [[[o2 st2] w2] n2].
    destruct H as (-> & -> & -> & Hn).
    destruct n1, n2; cbn in Hn |- *; try contradiction; tauto.
  - pose proof (copy_step_enc_dec rd wr st o w r) as H.
    destruct (copy_step rd (StreamWriter_Write wr) st (o, w) r) as [[st1 [o1 w1]] n1].
    destruct (copy_step (StreamReader_Read rd) wr (o, st) w r) as [[[o2 st2] w2] n2].
    destruct H as (-> & -> & -> & Hn).
    destruct n1, n2; cbn in Hn |- *; try contradiction; [apply IH | tauto].
Qed.

Lemma stream_enc_dec_agree (P : Primitives) {S W} (rd : S -> read_resp -> S * read_resp)
  (src : list read_resp) (st : S) (wr : W -> list byte -> W * (nat * option goerr))
  (dst : W) (key : list byte) :
  match stream_Encrypt P rd src st wr dst key, stream_Decrypt P rd src st wr dst key with
  | (st1, d1, r1), (st2, d2, r2) => st1 = st2 /\ d1 = d2 /\ (r1 = Ok tt <-> r2 = Ok tt)
  end.
Proof.
  unfold stream_Encrypt, stream_Decrypt.
  destruct (aes_NewCipher P key) as [blk|e].
  - pose proof (io_copy_enc_dec rd wr src st (newOFB blk (repeat zero_byte BlockSize)) dst) as H.
    destruct (io_copy rd (StreamWriter_Write wr) src st _) as [[st1 [o1 w1]] e1].
    destruct (io_copy (StreamReader_Read rd) wr src _ dst) as [[[o2 st2] w2] e2].
    destruct H as (-> & -> & -> & He).
    repeat split; destruct e1, e2; try reflexivity; try discriminate;
      intros; exfalso; destruct He as [He1 He2]; discriminate (He1 eq_refl) || discriminate (He2 eq_refl).
  - repeat split; intros; discriminate.
Qed.

Lemma stream_Decrypt_output (P : Primitives) {S W} (rd : S -> read_resp -> S * read_resp)
  (src : list read_resp) (st : S) (wr : W -> list byte -> W * (nat * option goerr))
  (dst : W) (key : list byte) :
  snd (fst (stream_Decrypt P rd src st wr dst key)) =
  snd (fst (stream_Encrypt P rd src st wr dst key)).
Proof.
  pose proof (stream_enc_dec_agree P rd src st wr dst key) as H.
  destruct (stream_Encrypt P rd src st wr dst key) as [[s1 d1] r1].
  destruct (stream_Decrypt P rd src st wr dst key) as [[s2 d2] r2].
  destruct H as (_ & -> & _). reflexivity.
Qed.

(** [stream.Encrypt] of one chunk into an empty buffer. *)
Lemma stream_Encrypt_chunk (P : Primitives) (key b : list byte) :
  length key = aesKeyLength ->
  stream_Encrypt P plain_read [(b, None)] tt buffer_write [] key =
  (tt, snd (xor_stream ofb_step (newOFB (aes_block P key) (repeat zero_byte BlockSize)) b), Ok tt).
Proof.
  intros Hk. unfold stream_Encrypt. rewrite aes_NewCipher_32 by exact Hk.
  cbn [io_copy]. unfold copy_step, plain_read, StreamWriter_Write, buffer_write. cbv zeta.
  set (o := newOFB (aes_block P key) (repeat zero_byte BlockSize)).
  pose proof (xor_stream_length ofb_step o b) as Hl.
  destruct (xor_stream ofb_step o b) as [o' c] eqn:X. cbn [snd] in Hl |- *.
  rewrite Hl, Nat.eqb_refl, Nat.ltb_irrefl.
  destruct (0 <? length b) eqn:Hpos.
  - rewrite Nat.eqb_refl. reflexivity.
  - assert (b = []) as -> by (destruct b; [reflexivity|discriminate]).
    cbn in X. injection X as _ <-. reflexivity.
Qed.

(** [io.Copy] from a [StreamSigner] over a source whose reads all succeed
    into a [cipher.StreamWriter] over a buffer. *)
Lemma io_copy_sign_encrypt (src : list read_resp) :
  Forall (fun r => snd r = None) src ->
  forall ra d o acc,
  io_copy Signer_Read (StreamWriter_Write buffer_write) src
    (mkSigner (Some (mkShake ra 0)) None d false) (o, acc) =
  (mkSigner (Some (mkShake (ra ++ chunks_data src) 0)) None
            (d || (0 <? length (chunks_data src))) false,
   (fst (xor_stream ofb_step o (chunks_data src)),
    acc ++ snd (xor_stream ofb_step o (chunks_data src))),
   None).
Proof.
  induction 1 as [|r rs He Hrs IH]; intros ra d o acc;
    [|destruct r as [data e]; cbn [snd] in He; subst e].
  - cbn. rewrite !app_nil_r, orb_false_r. reflexivity.
  - unfold chunks_data; cbn [map concat fst]; fold (chunks_data rs).
    rewrite xor_stream_app.
    cbn [io_copy]. unfold copy_step, Signer_Read, StreamWriter_Write, buffer_write. cbv zeta.
    cbn [option_map rHash wHash rDone wDone]. unfold shake_Write; cbn [sh_absorbed sh_squeezed].
    pose proof (xor_stream_length ofb_step o data) as Hl.
    destruct (xor_stream ofb_step o data) as [o1 c] eqn:X. cbn [fst snd] in Hl |- *.
    destruct (0 <? length data) eqn:Hpos.
    + rewrite Hl, Nat.eqb_refl, Nat.ltb_irrefl, Nat.eqb_refl.
      rewrite IH, <- !app_assoc, ltb0_length_app, Hpos, orb_true_r, !orb_true_r. reflexivity.
    + assert (data = []) as -> by (destruct data; [reflexivity|discriminate]).
      cbn in X. injection X as <- <-. rewrite IH, orb_false_r, !app_nil_r. reflexivity.
Qed.

(** [io.Copy] from a [cipher.StreamReader] over a source whose reads all
    succeed into a [StreamSigner] over a buffer. *)
Lemma io_copy_decrypt_sign (src : list read_resp) :
  Forall (fun r => snd r = None) src ->
  forall wa d o acc,
  io_copy (StreamReader_Read plain_read) (SignerWriter buffer_write) src
    (o, tt) (mkSigner None (Some (mkShake wa 0)) false d, acc) =
  ((fst (xor_stream ofb_step o (chunks_data src)), tt),
   (mkSigner None (Some (mkShake (wa ++ snd (xor_stream ofb_step o (chunks_data src))) 0))
             false (d || (0 <? length (chunks_data src))),
    acc ++ snd (xor_stream ofb_step o (chunks_data src))),
   None).
Proof.
  induction 1 as [|r rs He Hrs IH]; intros wa d o acc;
    [|destruct r as [data e]; cbn [snd] in He; subst e].
  - cbn. rewrite !app_nil_r, orb_false_r. reflexivity.
  - unfold chunks_data; cbn [map concat fst]; fold (chunks_data rs).
    rewrite xor_stream_app.
    cbn [io_copy]. unfold copy_step, StreamReader_Read, plain_read, SignerWriter, buffer_write.
    cbv zeta.
    pose proof (xor_stream_length ofb_step o data) as Hl.
    destruct (xor_stream ofb_step o data) as [o1 c] eqn:X. cbn [fst snd] in Hl |- *.
    cbn [Signer_Write option_map rHash wHash rDone wDone]. unfold shake_Write; cbn [sh_absorbed sh_squeezed].
    destruct (0 <? length c) eqn:Hpos.
    + rewrite Nat.ltb_irrefl, Nat.eqb_refl, firstn_all.
      rewrite IH, <- !app_assoc, ltb0_length_app, <- Hl, Hpos, !orb_true_r. reflexivity.
    + assert (data = []) as ->.
      { destruct data; [reflexivity|]. rewrite Hl in Hpos. discriminate. }
      cbn in X. injection X as <- <-. rewrite IH. reflexivity.
Qed.

Lemma copyBufSize_pos : 0 < copyBufSize.
Proof. unfold copyBufSize. lia. Qed.

Lemma file_reads_aux_spec (fuel : nat) : forall c, length c <= fuel ->
  Forall (fun r => snd r = None) (file_reads_aux fuel c) /\
  chunks_data (file_reads_aux fuel c) = c.
Proof.
  induction fuel as [|f IH]; intros c Hc.
  - destruct c; [split; [constructor|reflexivity]|cbn in Hc; lia].
  - destruct c as [|x c']; [split; [constructor|reflexivity]|].
    assert (Hk : length (skipn copyBufSize (x :: c')) <= f).
    { rewrite length_skipn. pose proof copyBufSize_pos. cbn [length] in Hc |- *. lia. }
    destruct (IH _ Hk) as [IH1 IH2].
    change (file_reads_aux (S f) (x :: c')) with
      ((firstn copyBufSize (x :: c'), None) :: file_reads_aux f (skipn copyBufSize (x :: c'))).
    split; [constructor; [reflexivity|exact IH1]|].
    unfold chunks_data in *; cbn [map concat fst]. rewrite IH2. apply firstn_skipn.
Qed.

Lemma file_reads_spec (c : list byte) :
  Forall (fun r => snd r = None) (file_reads c) /\ chunks_data (file_reads c) = c.
Proof. apply file_reads_aux_spec. lia. Qed.

Lemma lookup_set_file (fs : list (list byte * list byte)) (path c : list byte) :
  lookup_file (set_file fs path c) path = Some c.
Proof.
  induction fs as [|[p c0] fs IH]; cbn.
  - rewrite bytes_eqb_refl. reflexivity.
  - destruct (bytes_eqb p path) eqn:E; cbn; rewrite E; [reflexivity|exact IH].
Qed.

(** What a successful [File] returns and leaves in the file system. *)
Lemma File_inv (P : Primitives) (secret : list byte) (src : list read_resp)
  (base name : list byte) (w w' : World) (m : Msg) :
  File P secret src base name w = (w', Ok m) ->
  exists salt path sg contents dh0 w2,
    stream_Encrypt P Signer_Read src (NewStreamSigner true false) buffer_write []
      (fst (Key P secret salt)) = (sg, contents, Ok tt) /\
    snd (ReaderHashSum P sg) = Ok dh0 /\
    w' = mkWorld (set_file (w_files w2) path contents) (w_rand w2) /\
    m = encode false (msg_raw salt [] (snd (Key P secret salt)) dh0 path).
Proof.
  unfold File, mbind.
  destruct (Salt_ w) as [w1 [salt|e]]; [|intros H; discriminate H].
  destruct (wrapM _ (createFile P base name) w1) as [w2 [path|e]]; [|intros H; discriminate H].
  destruct (Key P secret salt) as [key h] eqn:HK.
  destruct (stream_Encrypt P Signer_Read src (NewStreamSigner true false) buffer_write [] key)
    as [[sg contents] r] eqn:HE.
  destruct r as [u|e]; [|intros H; discriminate H].
  destruct (snd (ReaderHashSum P sg)) as [dh0|e] eqn:HR; [|intros H; discriminate H].
  intros H. injection H as <- <-.
  exists salt, path, sg, contents, dh0, w2.
  rewrite HK. cbn [fst snd]. destruct u. repeat split; assumption.
Qed.

(** The digest of a side of a [StreamSigner] that absorbed [x]. *)
Lemma signerHash_absorbed (P : Primitives) (x : list byte) :
  signerHash P true (Some (mkShake x 0)) =
  (Some (mkShake x hashLength), Ok (shake256 P x hashLength)).
Proof. reflexivity. Qed.

Lemma hmac_Equal_false (a b : list byte) : a <> b -> hmac_Equal a b = false.
Proof.
  intros H. unfold hmac_Equal. destruct (bytes_eqb a b) eqn:E; [|reflexivity].
  apply bytes_eqb_eq in E. contradiction.
Qed.

Lemma toy_kdf_length : forall pw salt it n, length (pbkdf2_Key toyP pw salt it n) = n.
Proof.
  intros pw salt it n. cbn [pbkdf2_Key toyP]. unfold toy_kdf.
  rewrite length_firstn, !length_app, repeat_length. lia.
Qed.

Lemma int64_wrap_range (z : Z) : is_int64 (int64_wrap z).
Proof.
  unfold is_int64, int64_wrap.
  assert (HM : (2 ^ 64 = 2 * 2 ^ 63)%Z) by reflexivity.
  assert (HK : (0 < 2 ^ 63)%Z) by reflexivity.
  rewrite HM. pose proof (Z.mod_pos_bound (z + 2 ^ 63) (2 * 2 ^ 63)%Z ltac:(lia)). lia.
Qed.

Lemma int64_wrap_small (z : Z) : is_int64 z -> int64_wrap z = z.
Proof.
  unfold is_int64, int64_wrap. intros H.
  assert (HM : (2 ^ 64 = 2 * 2 ^ 63)%Z) by reflexivity.
  rewrite HM, Z.mod_small by lia. lia.
Qed.

Lemma int64_wrap_add (a b : Z) : int64_wrap (int64_wrap a + b) = int64_wrap (a + b).
Proof.
  unfold int64_wrap. f_equal.
  replace ((a + 2 ^ 63) mod 2 ^ 64 - 2 ^ 63 + b + 2 ^ 63)%Z
    with ((a + 2 ^ 63) mod 2 ^ 64 + b)%Z by ring.
  rewrite Zplus_mod_idemp_l. f_equal. ring.
Qed.

(** [Storage.Limit] when the sum does not overflow. *)
Lemma Limit_in_range (st : Storage) (v0 : Z) :
  is_int64 (st.(limit) + v0) ->
  Limit st v0 =
  if (st.(limit) + v0 >? st.(Size))%Z
  then (st, Err (ErrWrap "storage limit is reached" ErrSizeLimit))
  else (mkStorage st.(Dir) st.(Size) (st.(limit) + v0), Ok tt).
Proof. intros H. unfold Limit. rewrite int64_wrap_small by exact H. reflexivity. Qed.

Lemma sum_entries_spec (es : list DirEntry) :
  Forall info_ok es ->
  forall st, is_int64 st.(limit) ->
  sum_entries st es =
  (mkStorage st.(Dir) st.(Size) (int64_wrap (st.(limit) + nondir_size_sum es)), Ok tt).
Proof.
  induction 1 as [|e es He Hes IH]; intros st Hst.
  - cbn [sum_entries nondir_size_sum]. rewrite Z.add_0_r, int64_wrap_small by exact Hst.
    destruct st; reflexivity.
  - cbn [sum_entries nondir_size_sum]. unfold info_ok in He.
    destruct (IsDir e) eqn:Hd.
    + rewrite IH by exact Hst. reflexivity.
    + destruct (He eq_refl) as [sz Hsz]. rewrite Hsz.
      rewrite IH by apply int64_wrap_range. cbn [Dir Size limit].
      rewrite int64_wrap_add, Z.add_assoc. reflexivity.
Qed.

(** ** Claims *)

(** C1: for every non-empty plaintext [p] and every secret, [Text] followed
    by [DecryptText] with the same secret succeeds and returns exactly [p]
    (the entropy source delivering the salt and the IV, and PBKDF2 returning
    the key length it is asked for). *)
Theorem text_encrypt_decrypt_roundtrip (P : Primitives)
  (Hkdf : forall pw salt it n, length (pbkdf2_Key P pw salt it n) = n)
  (secret p : list byte) (w : World)
  (Hp : p <> []) (Hw : saltSize + BlockSize <= length (w_rand w)) :
  exists w' m, Text P secret p w = (w', Ok m) /\ DecryptText P secret m = Ok p.
Proof.
  destruct (Text_succeeds P Hkdf secret p w Hp Hw) as (w' & m & HT).
  exists w', m. split; [exact HT|].
  destruct (Text_inv _ _ _ _ _ _ HT) as (salt & iv & Hiv & _ & HC & ->).
  rewrite DecryptText_encode by assumption.
  f_equal. apply cfb_roundtrip.
Qed.

(** C6: the text cipher fails with [ErrEmpty] on an empty plaintext or
    ciphertext and [Decrypt] fails with the block-length error on a
    non-empty ciphertext shorter than a block; with a 32-byte key no other
    input raises either error ([Decrypt] then succeeds). *)
Theorem text_cipher_input_errors (P : Primitives) (key : list byte)
  (Hkey : length key = aesKeyLength) :
  (forall w, snd (text_Encrypt P [] key w) = Err ErrEmpty) /\
  text_Decrypt P [] key = Err ErrEmpty /\
  (forall c, c <> [] -> length c < BlockSize ->
     text_Decrypt P c key = Err ErrCipherBlockLength) /\
  (forall p w, p <> [] ->
     snd (text_Encrypt P p key w) <> Err ErrEmpty /\
     snd (text_Encrypt P p key w) <> Err ErrCipherBlockLength) /\
  (forall c, BlockSize <= length c -> exists p, text_Decrypt P c key = Ok p).
Proof.
  split; [reflexivity|]. split; [reflexivity|]. split; [|split].
  - intros [|c0 c] Hc Hlen; [congruence|].
    unfold text_Decrypt. apply Nat.ltb_lt in Hlen. rewrite Hlen. reflexivity.
  - intros [|a p] w Hp; [congruence|].
    unfold text_Encrypt, mbind, lift, wrapM, rand_Read, ret.
    rewrite aes_NewCipher_32 by exact Hkey. csimpl.
    destruct (BlockSize <=? length (w_rand w)); csimpl; split; discriminate.
  - intros [|c0 c] Hlen; [cbn in Hlen; unfold BlockSize in Hlen; lia|].
    unfold text_Decrypt.
    replace (length (c0 :: c) <? BlockSize) with false by (symmetry; apply Nat.ltb_ge; exact Hlen).
    rewrite aes_NewCipher_32 by exact Hkey. csimpl. eauto.
Qed.

(** C8: encoding the raw fields of an envelope and decoding them back gives
    the same envelope, so the same raw salt, key fingerprint and data digest
    (and value, for text envelopes); every hex string [encode] produces is
    lowercase hex of even length. *)
Theorem msg_encode_decode_roundtrip (withValue : bool) (m : Msg) :
  decode withValue (encode withValue m) = Ok (encode withValue m) /\
  s (encode withValue m) = s m /\ kh (encode withValue m) = kh m /\
  dh (encode withValue m) = dh m /\ v (encode withValue m) = v m /\
  lower_hex (Salt (encode withValue m)) /\
  lower_hex (KeyHash (encode withValue m)) /\
  lower_hex (DataHash (encode withValue m)) /\
  (if withValue then lower_hex (Value (encode withValue m)) else True).
Proof.
  assert (HL : forall l, lower_hex (hex_EncodeToString l)).
  { intros l. split; [apply hex_encode_lower|].
    rewrite hex_encode_length. exists (length l). lia. }
  split; [apply decode_encode|].
  do 4 (split; [reflexivity|]).
  split; [apply HL|]. split; [apply HL|]. split; [apply HL|].
  destruct withValue; [apply HL|exact I].
Qed.

(** C5: for a [StreamSigner] over a reader and a writer, after any sequence
    of reads and writes (the writer keeping the [io.Writer] contract),
    [ReaderHashSum] ([WriterHashSum]) returns the 32-byte digest [Hash] of
    exactly the bytes of the successful reads (writes), and fails with
    [ErrHash] when no byte flowed through that side. *)
Theorem stream_signer_digests (P : Primitives) (evs : list sig_event)
  (Hok : Forall write_ok evs) :
  snd (ReaderHashSum P (run_signer (NewStreamSigner true true) evs))
    = side_digest P (read_flow evs) /\
  snd (WriterHashSum P (run_signer (NewStreamSigner true true) evs))
    = side_digest P (write_flow evs).
Proof.
  pose proof (run_signer_spec evs [] [] Hok) as H. cbn [app] in H.
  change (NewStreamSigner true true) with
    (mkSigner (Some (mkShake [] 0)) (Some (mkShake [] 0))
              (0 <? length (@nil byte)) (0 <? length (@nil byte))).
  rewrite H. unfold ReaderHashSum, WriterHashSum, signerHash, side_digest, shake_Read, Hash.
  cbn [rDone wDone rHash wHash sh_absorbed sh_squeezed].
  split; [destruct (read_flow evs) | destruct (write_flow evs)]; reflexivity.
Qed.

(** C9: [stream.Encrypt] and [stream.Decrypt] transform the bytes in the
    same way: on the same source and destination they leave the same
    destination (and source) state and both succeed or both fail; with a
    32-byte key, encrypting (or decrypting) the ciphertext of [b] gives [b]
    back. *)
Theorem stream_encrypt_decrypt_same_transform (P : Primitives) {S W : Type}
  (rd : S -> read_resp -> S * read_resp) (src : list read_resp) (st : S)
  (wr : W -> list byte -> W * (nat * option goerr)) (dst : W) (key b : list byte)
  (Hkey : length key = aesKeyLength) :
  (match stream_Encrypt P rd src st wr dst key, stream_Decrypt P rd src st wr dst key with
   | (st1, d1, r1), (st2, d2, r2) => st1 = st2 /\ d1 = d2 /\ (r1 = Ok tt <-> r2 = Ok tt)
   end) /\
  (let c := snd (fst (stream_Encrypt P plain_read [(b, None)] tt buffer_write [] key)) in
   snd (fst (stream_Encrypt P plain_read [(c, None)] tt buffer_write [] key)) = b /\
   snd (fst (stream_Decrypt P plain_read [(c, None)] tt buffer_write [] key)) = b).
Proof.
  split; [apply stream_enc_dec_agree|].
  cbv zeta.
  assert (Henc : snd (fst (stream_Encrypt P plain_read
            [(snd (fst (stream_Encrypt P plain_read [(b, None)] tt buffer_write [] key)), None)]
            tt buffer_write [] key)) = b).
  { rewrite !stream_Encrypt_chunk by exact Hkey. cbn [fst snd]. apply ofb_involutive. }
  split; [exact Henc|].
  rewrite stream_Decrypt_output. exact Henc.
Qed.

(** C2 (amended): for a source whose reads all succeed, a successful
    [File] stores a non-empty stream [b] (an empty one makes [File] fail on
    the digest), and [DecryptFile] with the same secret on the stored file
    writes exactly [b] to its destination and passes the digest check. *)
Theorem file_encrypt_decrypt_roundtrip (P : Primitives)
  (Hkdf : forall pw salt it n, length (pbkdf2_Key P pw salt it n) = n)
  (secret : list byte) (src : list read_resp) (base name : list byte)
  (w w' : World) (m : Msg)
  (Hsrc : Forall (fun r => snd r = None) src)
  (HF : File P secret src base name w = (w', Ok m)) :
  chunks_data src <> [] /\
  DecryptFile P secret m buffer_write [] w' = (chunks_data src, Ok tt).
Proof.
  destruct (File_inv P secret src base name w w' m HF)
    as (salt & path & sg & contents & dh0 & w2 & HE & HR & -> & ->).
  destruct (Key P secret salt) as [key h] eqn:HK. cbn [fst snd] in HE |- *.
  assert (Hk : length key = aesKeyLength) by (unfold Key in HK; injection HK as <- _; apply Hkdf).
  unfold stream_Encrypt in HE. rewrite aes_NewCipher_32 in HE by exact Hk.
  change (NewStreamSigner true false) with (mkSigner (Some (mkShake [] 0)) None false false) in HE.
  rewrite io_copy_sign_encrypt in HE by exact Hsrc.
  cbv beta iota zeta in HE. injection HE as <- <-.
  set (D := chunks_data src) in *.
  unfold ReaderHashSum in HR. cbn [rDone rHash orb] in HR.
  destruct (0 <? length D) eqn:Hpos; [|discriminate HR].
  cbn [negb sh_absorbed sh_squeezed snd fst skipn Nat.add app] in HR. injection HR as <-.
  split; [intros HD; rewrite HD in Hpos; discriminate Hpos|].
  unfold DecryptFile. rewrite decode_encode. cbn [encode msg_raw Value s kh dh v w_files].
  rewrite lookup_set_file, HK, hmac_Equal_refl. cbn [negb].
  unfold stream_Decrypt. rewrite aes_NewCipher_32 by exact Hk.
  change (NewStreamSigner false true) with (mkSigner None (Some (mkShake [] 0)) false false).
  cbv zeta. cbn [repeat BlockSize].
  match goal with |- context [file_reads ?c] => destruct (file_reads_spec c) as [Hf1 Hf2] end.
  rewrite io_copy_decrypt_sign by exact Hf1. rewrite Hf2, ofb_involutive.
  rewrite xor_stream_length, Hpos. cbn [orb app].
  unfold WriterHashSum, signerHash, shake_Read.
  cbn [negb sh_absorbed sh_squeezed snd fst skipn Nat.add app wHash wDone].
  rewrite hmac_Equal_refl. reflexivity.
Qed.

(** C3: for an envelope made by [Text] or by [File] with the secret [s1],
    and a secret [s2] whose fingerprint for the stored salt differs from
    the stored one, [DecryptText] fails with [ErrSecret] and returns no
    plaintext, and [DecryptFile] fails with [ErrSecret] leaving every
    destination exactly as it was (nothing written). *)
Theorem secret_mismatch_rejected (P : Primitives) :
  (forall (s1 s2 p : list byte) (w w' : World) (m : Msg),
     Text P s1 p w = (w', Ok m) ->
     snd (Key P s2 m.(s)) <> m.(kh) ->
     DecryptText P s2 m = Err ErrSecret) /\
  (forall (s1 s2 : list byte) (src : list read_resp) (base name : list byte)
          (w w' : World) (m : Msg),
     File P s1 src base name w = (w', Ok m) ->
     snd (Key P s2 m.(s)) <> m.(kh) ->
     forall (W : Type) (wr : W -> list byte -> W * (nat * option goerr)) (dst : W),
     DecryptFile P s2 m wr dst w' = (dst, Err ErrSecret)).
Proof.
  split.
  - intros s1 s2 p w w' m HT Hne.
    destruct (Text_inv _ _ _ _ _ _ HT) as (salt & iv & _ & _ & _ & ->).
    unfold DecryptText. rewrite decode_encode. cbn [rbind].
    cbn [encode msg_raw s kh] in Hne |- *.
    destruct (Key P s2 salt) as [k2 h2]. cbn [snd] in Hne.
    rewrite hmac_Equal_false by exact Hne. reflexivity.
  - intros s1 s2 src base name w w' m HF Hne W wr dst.
    destruct (File_inv P s1 src base name w w' m HF)
      as (salt & path & sg & contents & dh0 & w2 & _ & _ & -> & ->).
    unfold DecryptFile. rewrite decode_encode.
    cbn [encode msg_raw Value s kh w_files] in Hne |- *.
    rewrite lookup_set_file.
    destruct (Key P s2 salt) as [k2 h2]. cbn [snd] in Hne.
    rewrite hmac_Equal_false by exact Hne. reflexivity.
Qed.

(** C4 (the code's int64 sum overflows): while [reservedBytes + n] fits in
    an int64, [Limit] fails with [ErrSizeLimit] and changes nothing exactly
    when the sum exceeds the capacity, and otherwise stores the sum.  The
    sum is not checked for overflow: with one byte reserved out of 1 MiB,
    [Limit (2^63 - 1)] asks for more than the capacity, yet it succeeds and
    leaves [-2^63] reserved. *)
Theorem Limit_int64_overflow :
  (forall (st : Storage) (v0 : Z), is_int64 (st.(limit) + v0) ->
     Limit st v0 =
     if (st.(limit) + v0 >? st.(Size))%Z
     then (st, Err (ErrWrap "storage limit is reached" ErrSizeLimit))
     else (mkStorage st.(Dir) st.(Size) (st.(limit) + v0), Ok tt)) /\
  ((1 + (2 ^ 63 - 1) > Z.shiftl 1 20)%Z /\
   Limit (mkStorage ex_dir (Z.shiftl 1 20) 1) (2 ^ 63 - 1) =
   (mkStorage ex_dir (Z.shiftl 1 20) (- 2 ^ 63), Ok tt)).
Proof.
  split; [exact Limit_in_range|].
  split; [reflexivity | vm_compute; reflexivity].
Qed.

(** C7 (amended): [initLimits] fails and changes nothing when the
    directory cannot be read; otherwise it sets the capacity to the int64
    value of [Size << 20] and adds to the reserved bytes the [Info] size of
    every entry that is not a directory (symlinks included), so from zero
    reserved bytes it reserves their sum; files of 100, 250 and 5 bytes
    next to a subdirectory give 355. *)
Theorem initLimits_reserves_nondir_sizes :
  (forall (st : Storage) (readDir : list byte -> result (list DirEntry)) (es : list DirEntry),
     is_int64 st.(limit) -> readDir st.(Dir) = Ok es -> Forall info_ok es ->
     initLimits st readDir =
     (mkStorage st.(Dir) (int64_wrap (Z.shiftl st.(Size) 20))
                (int64_wrap (st.(limit) + nondir_size_sum es)), Ok tt)) /\
  (forall (st : Storage) (readDir : list byte -> result (list DirEntry)) (e : goerr),
     readDir st.(Dir) = Err e -> initLimits st readDir = (st, Err e)) /\
  initLimits (mkStorage ex_dir 1 0) (fun _ => Ok ex_entries) =
  (mkStorage ex_dir (Z.shiftl 1 20) 355, Ok tt).
Proof.
  split; [|split].
  - intros st readDir es Hst Hrd Hinfo. unfold initLimits. rewrite Hrd.
    rewrite sum_entries_spec by assumption. reflexivity.
  - intros st readDir e Hrd. unfold initLimits. rewrite Hrd. reflexivity.
  - vm_compute. reflexivity.
Qed.

(** C7 counterexample: a symlink's size is reserved too, and the sizes are
    added to the bytes already reserved. *)
Lemma initLimits_counts_symlink_and_prior :
  initLimits (mkStorage ex_dir 1 0) (fun _ => Ok [regular "a" 100; symlink "l" 7]) =
  (mkStorage ex_dir (Z.shiftl 1 20) 107, Ok tt) /\
  initLimits (mkStorage ex_dir 1 10) (fun _ => Ok [regular "a" 100]) =
  (mkStorage ex_dir (Z.shiftl 1 20) 110, Ok tt).
Proof. split; vm_compute; reflexivity. Qed.

(** C10 (the code's int64 sum overflows): a negative size is accepted and
    can leave the reserved bytes negative, and while the sum fits in an
    int64 the call succeeds exactly when it does not exceed the capacity.
    With [-1] reserved, [Limit (-2^63)] asks for a sum below the capacity,
    but the sum wraps to [2^63 - 1] and the call fails. *)
Theorem Limit_negative_and_overflow :
  (forall (st : Storage) (v0 : Z), is_int64 (st.(limit) + v0) ->
     (snd (Limit st v0) = Ok tt <-> (st.(limit) + v0 <= st.(Size))%Z) /\
     (snd (Limit st v0) = Ok tt -> (fst (Limit st v0)).(limit) = (st.(limit) + v0)%Z)) /\
  Limit (mkStorage ex_dir (Z.shiftl 1 20) 0) (-5) =
  (mkStorage ex_dir (Z.shiftl 1 20) (-5), Ok tt) /\
  ((-1) + (- 2 ^ 63) <= Z.shiftl 1 20)%Z /\
  Limit (mkStorage ex_dir (Z.shiftl 1 20) (-1)) (- 2 ^ 63) =
  (mkStorage ex_dir (Z.shiftl 1 20) (-1), Err (ErrWrap "storage limit is reached" ErrSizeLimit)).
Proof.
  split; [|split; [vm_compute; reflexivity | split; [discriminate | vm_compute; reflexivity]]].
  intros st v0 H. rewrite (Limit_in_range st v0 H).
  destruct (st.(limit) + v0 >? st.(Size))%Z eqn:E.
  - apply Z.gtb_lt in E. cbn [snd]. split; [split; [discriminate | lia] | discriminate].
  - rewrite Z.gtb_ltb in E. apply Z.ltb_ge in E. cbn. split; [tauto | reflexivity].
Qed.

(** C2 counterexample: [File] on an empty stream fails with [ErrHash]: no
    byte went through the signer. *)
Lemma file_empty_stream_fails :
  snd (File toyP ex_secret [] ex_dir (list_byte_of_string "data") ex_world) = Err ErrHash.
Proof. vm_compute. reflexivity. Qed.

(** Witnesses: the theorems applied to the concrete instances. *)

Lemma text_roundtrip_witness :
  exists w' m, Text toyP ex_secret ex_plain ex_world = (w', Ok m) /\
               DecryptText toyP ex_secret m = Ok ex_plain.
Proof.
  apply (text_encrypt_decrypt_roundtrip toyP toy_kdf_length ex_secret ex_plain ex_world).
  - discriminate.
  - apply Nat.leb_le. vm_compute. reflexivity.
Defined.

Lemma file_roundtrip_witness :
  chunks_data ex_src <> [] /\
  DecryptFile toyP ex_secret ex_file_msg buffer_write [] ex_file_world =
  (chunks_data ex_src, Ok tt).
Proof.
  apply (file_encrypt_decrypt_roundtrip toyP toy_kdf_length ex_secret ex_src ex_dir
           (list_byte_of_string "data") ex_world).
  - repeat constructor.
  - vm_compute. reflexivity.
Defined.

Lemma secret_mismatch_witness :
  DecryptText toyP ex_secret2 ex_text_msg = Err ErrSecret /\
  DecryptFile toyP ex_secret2 ex_file_msg buffer_write [] ex_file_world = ([], Err ErrSecret).
Proof.
  split.
  - apply (proj1 (secret_mismatch_rejected toyP) ex_secret ex_secret2 ex_plain ex_world
             ex_text_world).
    + vm_compute. reflexivity.
    + vm_compute. discriminate.
  - apply (proj2 (secret_mismatch_rejected toyP) ex_secret ex_secret2 ex_src ex_dir
             (list_byte_of_string "data") ex_world).
    + vm_compute. reflexivity.
    + vm_compute. discriminate.
Defined.

Lemma stream_signer_digests_witness :
  snd (ReaderHashSum toyP (run_signer (NewStreamSigner true true) ex_events))
    = side_digest toyP (read_flow ex_events) /\
  snd (WriterHashSum toyP (run_signer (NewStreamSigner true true) ex_events))
    = side_digest toyP (write_flow ex_events).
Proof.
  apply stream_signer_digests. unfold ex_events.
  repeat apply Forall_cons; try apply Forall_nil; cbn; lia.
Defined.

Lemma text_cipher_input_errors_witness :
  text_Decrypt toyP [Byte.x01] ex_key = Err ErrCipherBlockLength /\
  exists p, text_Decrypt toyP (repeat Byte.x00 20) ex_key = Ok p.
Proof.
  destruct (text_cipher_input_errors toyP ex_key eq_refl) as (_ & _ & H3 & _ & H5).
  split.
  - apply H3; [discriminate | apply Nat.ltb_lt; reflexivity].
  - apply H5. apply Nat.leb_le. reflexivity.
Defined.

Lemma stream_same_transform_witness :
  snd (fst (stream_Decrypt toyP plain_read
     [(snd (fst (stream_Encrypt toyP plain_read [(ex_plain, None)] tt buffer_write [] ex_key)),
       None)] tt buffer_write [] ex_key)) = ex_plain.
Proof.
  pose proof (stream_encrypt_decrypt_same_transform toyP plain_read [] tt buffer_write []
                ex_key ex_plain eq_refl) as [_ H].
  cbv zeta in H. exact (proj2 H).
Defined.

(** * Further properties of the code *)

(** ** Files: [createFile] and [File] *)

Lemma lookup_set_file_other (fs : list (list byte * list byte)) (path c q : list byte) :
  q <> path -> lookup_file (set_file fs path c) q = lookup_file fs q.
Proof.
  intros Hq. induction fs as [|[p c0] fs IH]; cbn.
  - destruct (bytes_eqb path q) eqn:E; [|reflexivity].
    apply bytes_eqb_eq in E. congruence.
  - destruct (bytes_eqb p path) eqn:E; cbn.
    + apply bytes_eqb_eq in E. subst p.
      destruct (bytes_eqb path q) eqn:E2; [apply bytes_eqb_eq in E2; congruence|reflexivity].
    + destruct (bytes_eqb p q); [reflexivity|exact IH].
Qed.

Lemma create_attempts_spec (P : Primitives) (k : nat) :
  forall base name w w' r,
  create_attempts P k base name w = (w', r) ->
  (forall path, r = Ok path ->
     lookup_file (w_files w) path = None /\ w_files w' = set_file (w_files w) path []) /\
  (forall e, r = Err e -> w_files w' = w_files w).
Proof.
  induction k as [|k IH]; intros base name w w' r H.
  - cbn in H. injection H as <- <-. split; [discriminate|reflexivity].
  - cbn [create_attempts] in H. unfold mbind in H.
    destruct name as [|c nm].
    + unfold mbind, wrapM, Random, rand_Read, ret in H.
      destruct (fileNameSize <=? length (w_rand w)) eqn:E.
      * cbn [wrap] in H.
        set (w1 := mkWorld (w_files w) (skipn fileNameSize (w_rand w))) in H.
        destruct (lookup_file (w_files w1) (filepath_Join P base
                    (hex_EncodeToString (firstn fileNameSize (w_rand w))))) eqn:L.
        -- exact (IH _ _ _ _ _ H).
        -- injection H as <- <-. split; [|discriminate].
           intros path Hp. injection Hp as <-. split; [exact L|reflexivity].
      * cbn [wrap] in H. injection H as <- <-. split; [discriminate|reflexivity].
    + unfold ret in H.
      destruct (lookup_file (w_files w) (filepath_Join P base (c :: nm))) eqn:L.
      * exact (IH _ _ _ _ _ H).
      * injection H as <- <-. split; [|discriminate].
        intros path Hp. injection Hp as <-. split; [exact L|reflexivity].
Qed.

(** X1: [createFile] never overwrites a file: the path it returns did not
    exist, it now holds an empty file and every other path is unchanged; when
    it fails, no file changes. *)
Theorem createFile_never_overwrites (P : Primitives) (base name : list byte)
  (w w' : World) (r : result (list byte))
  (H : createFile P base name w = (w', r)) :
  (forall path, r = Ok path ->
     lookup_file (w_files w) path = None /\ lookup_file (w_files w') path = Some [] /\
     forall q, q <> path -> lookup_file (w_files w') q = lookup_file (w_files w) q) /\
  (forall e, r = Err e -> w_files w' = w_files w).
Proof.
  destruct (create_attempts_spec P _ base name w w' r H) as [Hok Herr].
  split; [|exact Herr].
  intros path Hp. destruct (Hok path Hp) as [Hn Hw]. rewrite Hw.
  split; [exact Hn|split; [apply lookup_set_file|]].
  intros q Hq. apply lookup_set_file_other. exact Hq.
Qed.


(** X3: without a name, [createFile] names the file with 128 lowercase hex
    digits (64 random bytes). *)
Theorem createFile_random_name (P : Primitives) (base : list byte) (w w' : World)
  (path : list byte) (H : createFile P base [] w = (w', Ok path)) :
  exists nm, path = filepath_Join P base nm /\ length nm = 2 * fileNameSize /\ lower_hex nm.
Proof.
  unfold createFile in H. revert w H.
  generalize fileCreateAttempts as k.
  induction k as [|k IH]; intros w H; [discriminate H|].
  cbn [create_attempts] in H. unfold mbind, wrapM, Random, rand_Read, ret in H.
  destruct (fileNameSize <=? length (w_rand w)) eqn:E; cbn [wrap] in H; [|discriminate H].
  destruct (lookup_file _ _) in H.
  - exact (IH _ H).
  - injection H as _ <-.
    exists (hex_EncodeToString (firstn fileNameSize (w_rand w))).
    split; [reflexivity|]. rewrite hex_encode_length, length_firstn.
    apply Nat.leb_le in E. split; [f_equal; lia|].
    split; [apply hex_encode_lower|].
    rewrite hex_encode_length. exists (length (firstn fileNameSize (w_rand w))). reflexivity.
Qed.

Lemma Salt_files (w w1 : World) r : Salt_ w = (w1, r) -> w_files w1 = w_files w.
Proof.
  unfold Salt_, wrapM, Random, rand_Read.
  destruct (saltSize <=? length (w_rand w)); intros H; injection H as <- _; reflexivity.
Qed.

(** X4: [File] never changes a file that existed before it ran, whether it
    succeeds or fails. *)
Theorem File_keeps_existing_files (P : Primitives) (secret : list byte) (src : list read_resp)
  (base name : list byte) (w w' : World) (r : result Msg) (q c : list byte)
  (H : File P secret src base name w = (w', r))
  (Hq : lookup_file (w_files w) q = Some c) :
  lookup_file (w_files w') q = Some c.
Proof.
  unfold File, mbind in H.
  destruct (Salt_ w) as [w1 [salt|e]] eqn:HS;
    [|injection H as <- _; rewrite (Salt_files _ _ _ HS); exact Hq].
  pose proof (Salt_files _ _ _ HS) as HF1.
  unfold wrapM in H.
  destruct (createFile P base name w1) as [w2 r2] eqn:HC.
  destruct (create_attempts_spec P _ base name w1 w2 r2 HC) as [Hok Herr].
  destruct r2 as [path|e]; cbn [wrap] in H;
    [|injection H as <- _; rewrite (Herr e eq_refl), HF1; exact Hq].
  destruct (Hok path eq_refl) as [Hn Hw2].
  assert (Hqp : q <> path) by (intros ->; rewrite HF1 in Hn; congruence).
  destruct (Key P secret salt) as [key h].
  destruct (stream_Encrypt P Signer_Read src _ buffer_write [] key) as [[sg contents] r3].
  assert (Hlk : lookup_file (set_file (w_files w2) path contents) q = Some c).
  { rewrite lookup_set_file_other, Hw2, lookup_set_file_other, HF1 by exact Hqp. exact Hq. }
  destruct r3; [destruct (snd (ReaderHashSum P sg))|];
    injection H as <- _; exact Hlk.
Qed.

(** ** The text cipher *)

Lemma aes_NewCipher_valid (P : Primitives) (key : list byte) :
  length key = 16 \/ length key = 24 \/ length key = 32 ->
  aes_NewCipher P key = Ok (aes_block P key).
Proof. intros [H|[H|H]]; unfold aes_NewCipher; rewrite H; reflexivity. Qed.

Lemma aes_NewCipher_invalid (P : Primitives) (key : list byte) :
  length key <> 16 -> length key <> 24 -> length key <> 32 ->
  aes_NewCipher P key = Err (ErrKeySize (length key)).
Proof.
  intros H1 H2 H3. unfold aes_NewCipher.
  apply Nat.eqb_neq in H1, H2, H3. rewrite H1, H2, H3. reflexivity.
Qed.

(** Decrypting [iv ++ c] with a valid key. *)
Lemma text_Decrypt_iv (P : Primitives) (key iv c : list byte) :
  aes_NewCipher P key = Ok (aes_block P key) -> length iv = BlockSize ->
  text_Decrypt P (iv ++ c) key =
  Ok (snd (xor_stream cfb_step (newCFB (aes_block P key) iv true) c)).
Proof.
  intros HC Hiv. unfold text_Decrypt.
  destruct iv as [|i0 iv']; [discriminate|]. cbn [app].
  replace (length (i0 :: iv' ++ c) <? BlockSize) with false.
  2:{ symmetry. apply Nat.ltb_ge. cbn [length] in *. rewrite length_app. lia. }
  rewrite HC. cbn [rbind wrap].
  rewrite app_comm_cons, firstn_app_exact, skipn_app_exact by exact Hiv.
  reflexivity.
Qed.

(** X5: with a 16-, 24- or 32-byte key and 16 bytes of entropy, [text.Encrypt]
    of a non-empty plaintext consumes exactly 16 random bytes (the IV),
    returns [BlockSize + len p] bytes, and [text.Decrypt] gives [p] back. *)
Theorem text_cipher_roundtrip_any_key (P : Primitives) (key p : list byte) (w : World)
  (Hkey : length key = 16 \/ length key = 24 \/ length key = 32)
  (Hp : p <> []) (Hw : BlockSize <= length (w_rand w)) :
  exists c, text_Encrypt P p key w = (mkWorld (w_files w) (skipn BlockSize (w_rand w)), Ok c) /\
    length c = BlockSize + length p /\ text_Decrypt P c key = Ok p.
Proof.
  pose proof (aes_NewCipher_valid P key Hkey) as HC.
  unfold text_Encrypt, mbind, lift, wrapM, rand_Read, ret.
  destruct p as [|a p']; [congruence|].
  rewrite HC. cbn [wrap].
  replace (BlockSize <=? length (w_rand w)) with true by (symmetry; apply Nat.leb_le; exact Hw).
  cbn [wrap].
  set (iv := firstn BlockSize (w_rand w)).
  assert (Hiv : length iv = BlockSize) by (unfold iv; rewrite length_firstn; lia).
  eexists. split; [reflexivity|]. split.
  - rewrite length_app, xor_stream_length, Hiv. reflexivity.
  - rewrite text_Decrypt_iv by assumption. f_equal. apply cfb_roundtrip.
Qed.

(** X6: a key whose length is not 16, 24 or 32 is refused with the key-size
    error: [text.Encrypt] (before it reads any entropy), [text.Decrypt] of a
    ciphertext of at least one block, and [stream.Encrypt] and
    [stream.Decrypt] (before they read or write anything). *)
Theorem invalid_key_refused (P : Primitives) (key : list byte)
  (H16 : length key <> 16) (H24 : length key <> 24) (H32 : length key <> 32) :
  (forall p w, p <> [] ->
     text_Encrypt P p key w = (w, Err (ErrWrap "new encrypt cipher" (ErrKeySize (length key))))) /\
  (forall c, BlockSize <= length c ->
     text_Decrypt P c key = Err (ErrWrap "new decrypt cipher" (ErrKeySize (length key)))) /\
  (forall (S W : Type) rd (src : list read_resp) (st : S) wr (dst : W),
     stream_Encrypt P rd src st wr dst key =
     (st, dst, Err (ErrWrap "ecrypt cipher" (ErrKeySize (length key))))) /\
  (forall (S W : Type) rd (src : list read_resp) (st : S) wr (dst : W),
     stream_Decrypt P rd src st wr dst key =
     (st, dst, Err (ErrWrap "decrypt cipher" (ErrKeySize (length key))))).
Proof.
  pose proof (aes_NewCipher_invalid P key H16 H24 H32) as HC.
  split; [|split; [|split]].
  - intros [|a p] w Hp; [congruence|].
    unfold text_Encrypt, mbind, lift. rewrite HC. reflexivity.
  - intros [|a c] Hc; [cbn in Hc; unfold BlockSize in Hc; lia|].
    unfold text_Decrypt.
    replace (length (a :: c) <? BlockSize) with false by (symmetry; apply Nat.ltb_ge; exact Hc).
    rewrite HC. reflexivity.
  - intros. unfold stream_Encrypt. rewrite HC. reflexivity.
  - intros. unfold stream_Decrypt. rewrite HC. reflexivity.
Qed.

(** ** [encrypt.Text] *)



(** ** The storage quota *)

(** A failed [Limit] changes nothing; a successful one keeps [Dir] and [Size]
    and leaves the reservation at most [Size]. *)
Lemma Limit_step (st : Storage) (v0 : Z) :
  Dir (fst (Limit st v0)) = Dir st /\ Size (fst (Limit st v0)) = Size st /\
  ((limit st <= Size st)%Z -> (limit (fst (Limit st v0)) <= Size (fst (Limit st v0)))%Z).
Proof.
  unfold Limit. destruct (int64_wrap (limit st + v0) >? Size st)%Z eqn:E; cbn [fst Dir Size limit].
  - tauto.
  - rewrite Z.gtb_ltb, Z.ltb_ge in E. repeat split; intros; assumption.
Qed.

Lemma sum_entries_app (es1 es2 : list DirEntry) : forall st,
  sum_entries st (es1 ++ es2) =
  match sum_entries st es1 with
  | (st1, Ok _) => sum_entries st1 es2
  | r => r
  end.
Proof.
  induction es1 as [|e es1 IH]; intros st; [reflexivity|].
  cbn [app sum_entries]. destruct (IsDir e); [apply IH|].
  destruct (de_info e); [apply IH|reflexivity].
Qed.

(** X8: starting from a state whose reservation is within [Size], any
    sequence of [Limit] calls, successful or not, keeps the reservation
    within [Size] and never changes [Dir] or [Size]. *)
Theorem Limit_sequence_keeps_quota (vs : list Z) (st : Storage)
  (Hst : (limit st <= Size st)%Z) :
  let st' := fold_left (fun s0 v0 => fst (Limit s0 v0)) vs st in
  (limit st' <= Size st')%Z /\ Size st' = Size st /\ Dir st' = Dir st.
Proof.
  revert st Hst. induction vs as [|v0 vs IH]; intros st Hst; cbn [fold_left].
  - repeat split; assumption.
  - destruct (Limit_step st v0) as (HD & HS & HL).
    destruct (IH (fst (Limit st v0)) (HL Hst)) as (H1 & H2 & H3).
    repeat split; [exact H1 | congruence | congruence].
Qed.

(** X9: a reservation of [v] is undone by [Limit(-v)]: when the reservation
    is within [Size] and [v] and [-v] are [int64] values, a successful
    [Limit(v)] followed by [Limit(-v)] succeeds and restores the storage. *)
Theorem Limit_release (st st' : Storage) (v0 : Z)
  (Hlim : is_int64 (limit st)) (Hle : (limit st <= Size st)%Z)
  (Hv : is_int64 v0) (Hnv : is_int64 (- v0))
  (H : Limit st v0 = (st', Ok tt)) :
  Limit st' (- v0) = (st, Ok tt).
Proof.
  unfold Limit in H.
  destruct (int64_wrap (limit st + v0) >? Size st)%Z; [discriminate|].
  injection H as <-. unfold Limit. cbn [Dir Size limit].
  rewrite int64_wrap_add. replace (limit st + v0 + - v0)%Z with (limit st) by ring.
  rewrite int64_wrap_small by exact Hlim.
  replace (limit st >? Size st)%Z with false by (symmetry; rewrite Z.gtb_ltb; apply Z.ltb_ge; exact Hle).
  destruct st; reflexivity.
Qed.

(** X10: [initLimits] stops at the first entry that is not a directory and
    whose [Info()] fails: it returns that error, with [Size] already
    converted to bytes and the sizes of the entries before it already
    reserved. *)
Theorem initLimits_info_error (st : Storage) (readDir : list byte -> result (list DirEntry))
  (es1 : list DirEntry) (e : DirEntry) (es2 : list DirEntry) (err : goerr)
  (Hlim : is_int64 (limit st)) (Hrd : readDir (Dir st) = Ok (es1 ++ e :: es2))
  (H1 : Forall info_ok es1) (He : IsDir e = false) (Hi : de_info e = Err err) :
  initLimits st readDir =
  (mkStorage (Dir st) (int64_wrap (Z.shiftl (Size st) 20))
             (int64_wrap (limit st + nondir_size_sum es1)), Err err).
Proof.
  unfold initLimits. rewrite Hrd, sum_entries_app, sum_entries_spec by assumption.
  cbn [sum_entries Dir Size limit]. rewrite He, Hi. reflexivity.
Qed.

(** ** Hex fields of the envelope *)

Lemma hex_decode_invalid (n : nat) : forall (pre post : list byte) (c : byte),
  length pre <= n -> Forall is_hex_digit pre -> fromHexChar c = None ->
  hex_DecodeString (pre ++ c :: post) = Err (ErrInvalidByte c).
Proof.
  induction n as [|n IH]; intros pre post c Hn Hpre Hc.
  - destruct pre; [|cbn in Hn; lia]. cbn [app].
    destruct post as [|q rest]; cbn [hex_DecodeString]; rewrite Hc; reflexivity.
  - destruct pre as [|x [|y pre']].
    + apply (IH [] post c); [cbn; lia|constructor|exact Hc].
    + inversion Hpre as [|? ? Hx _]; subst. unfold is_hex_digit in Hx.
      cbn [app hex_DecodeString]. destruct (fromHexChar x); [|congruence]. rewrite Hc. reflexivity.
    + inversion Hpre as [|? ? Hx Hpre1]; subst. inversion Hpre1 as [|? ? Hy Hpre2]; subst.
      unfold is_hex_digit in Hx, Hy.
      cbn [app hex_DecodeString].
      destruct (fromHexChar x); [|congruence]. destruct (fromHexChar y); [|congruence].
      rewrite (IH pre' post c) by (cbn in Hn; lia || assumption). reflexivity.
Qed.

Lemma hex_decode_odd (n : nat) : forall (l : list byte),
  length l <= n -> Forall is_hex_digit l -> Nat.Odd (length l) ->
  hex_DecodeString l = Err ErrLength.
Proof.
  induction n as [|n IH]; intros l Hn Hl Hodd.
  - destruct l; [destruct Hodd; cbn in *; lia|cbn in Hn; lia].
  - destruct l as [|x [|y l']].
    + destruct Hodd; cbn in *; lia.
    + inversion Hl as [|? ? Hx _]; subst. unfold is_hex_digit in Hx.
      cbn [hex_DecodeString]. destruct (fromHexChar x); [reflexivity|congruence].
    + inversion Hl as [|? ? Hx Hl1]; subst. inversion Hl1 as [|? ? Hy Hl2]; subst.
      unfold is_hex_digit in Hx, Hy. cbn [hex_DecodeString].
      destruct (fromHexChar x); [|congruence]. destruct (fromHexChar y); [|congruence].
      rewrite (IH l'); [reflexivity|cbn in Hn; lia|exact Hl2|].
      destruct Hodd as [k Hk]. cbn [length] in Hk. exists (k - 1). lia.
Qed.

Lemma hex_pair_lower (c1 c2 : byte) :
  In c1 hextable -> In c2 hextable ->
  exists x y, fromHexChar c1 = Some x /\ fromHexChar c2 = Some y /\
    hex_encode_byte (byte_of_nibbles x y) = [c1; c2].
Proof.
  intros H1 H2. cbn in H1, H2.
  repeat (destruct H1 as [<-|H1]); try contradiction.
  all: repeat (destruct H2 as [<-|H2]); try contradiction.
  all: eexists _, _; split; [reflexivity|]; split; [reflexivity|]; reflexivity.
Qed.

Lemma hex_encode_decode_lower (n : nat) : forall (l : list byte),
  length l <= n -> lower_hex l ->
  exists d, hex_DecodeString l = Ok d /\ hex_EncodeToString d = l.
Proof.
  induction n as [|n IH]; intros l Hn [Hl Hev].
  - destruct l; [exists []; split; reflexivity|cbn in Hn; lia].
  - destruct l as [|x [|y l']].
    + exists []; split; reflexivity.
    + destruct Hev as [k Hk]. cbn in Hk. lia.
    + inversion Hl as [|? ? Hx Hl1]; subst. inversion Hl1 as [|? ? Hy Hl2]; subst.
      destruct (hex_pair_lower x y Hx Hy) as (a & b & Ha & Hb & Hab).
      destruct (IH l') as (d & Hd & Hed).
      { cbn in Hn. lia. }
      { split; [exact Hl2|]. destruct Hev as [k Hk]. cbn [length] in Hk. exists (k - 1). lia. }
      exists (byte_of_nibbles a b :: d). cbn [hex_DecodeString]. rewrite Ha, Hb, Hd.
      split; [reflexivity|].
      change (hex_EncodeToString (byte_of_nibbles a b :: d))
        with (hex_encode_byte (byte_of_nibbles a b) ++ hex_EncodeToString d).
      rewrite Hab, Hed. reflexivity.
Qed.

(** X11: decoding an envelope whose hex fields are lowercase hex strings of
    even length (the value too when [withValue]) succeeds, and the decoded
    message is a fixed point of [encode]: its text fields are exactly the
    encodings of its byte fields. *)
Theorem msg_decode_encode_lower (withValue : bool) (m : Msg)
  (Hs : lower_hex (Salt m)) (Hkh : lower_hex (KeyHash m)) (Hdh : lower_hex (DataHash m))
  (Hv : withValue = true -> lower_hex (Value m)) :
  exists m', decode withValue m = Ok m' /\ encode withValue m' = m' /\
    Salt m' = Salt m /\ KeyHash m' = KeyHash m /\ DataHash m' = DataHash m /\
    Value m' = Value m.
Proof.
  destruct (hex_encode_decode_lower _ _ (le_n _) Hs) as (s' & Hs1 & Hs2).
  destruct (hex_encode_decode_lower _ _ (le_n _) Hkh) as (k' & Hk1 & Hk2).
  destruct (hex_encode_decode_lower _ _ (le_n _) Hdh) as (d' & Hd1 & Hd2).
  unfold decode. rewrite Hs1, Hk1, Hd1. cbn [rbind wrap].
  destruct withValue.
  - destruct (hex_encode_decode_lower _ _ (le_n _) (Hv eq_refl)) as (v' & Hv1 & Hv2).
    rewrite Hv1. cbn [rbind wrap].
    eexists. split; [reflexivity|]. unfold encode; cbn [Salt KeyHash DataHash Value s v kh dh].
    rewrite Hs2, Hk2, Hd2, Hv2. repeat split; reflexivity.
  - cbn [rbind]. eexists. split; [reflexivity|]. unfold encode; cbn [Salt KeyHash DataHash Value s v kh dh].
    rewrite Hs2, Hk2, Hd2. repeat split; reflexivity.
Qed.

(** X12: [decode] reports a malformed salt before looking at any other
    field: the first character of the salt that is not a hex digit, or
    [ErrLength] when the salt is an odd number of hex digits, wrapped with
    "hex decode salt". *)
Theorem msg_decode_salt_errors (withValue : bool) (m : Msg) :
  (forall pre c post, Salt m = pre ++ c :: post -> Forall is_hex_digit pre ->
     fromHexChar c = None ->
     decode withValue m = Err (ErrWrap "hex decode salt" (ErrInvalidByte c))) /\
  (Forall is_hex_digit (Salt m) -> Nat.Odd (length (Salt m)) ->
     decode withValue m = Err (ErrWrap "hex decode salt" ErrLength)).
Proof.
  split.
  - intros pre c post Hm Hpre Hc. unfold decode. rewrite Hm.
    rewrite (hex_decode_invalid _ pre post c (le_n _) Hpre Hc). reflexivity.
  - intros Hl Hodd. unfold decode.
    rewrite (hex_decode_odd _ _ (le_n _) Hl Hodd). reflexivity.
Qed.

(** ** The stream cipher over a plain source and a buffer *)

Lemma io_copy_plain_encrypt_prefix (src1 : list read_resp) :
  Forall (fun r => snd r = None) src1 ->
  forall tl o acc,
  io_copy plain_read (StreamWriter_Write buffer_write) (src1 ++ tl) tt (o, acc) =
  io_copy plain_read (StreamWriter_Write buffer_write) tl tt
    (fst (xor_stream ofb_step o (chunks_data src1)),
     acc ++ snd (xor_stream ofb_step o (chunks_data src1))).
Proof.
  induction 1 as [|r rs He Hrs IH]; intros tl o acc;
    [|destruct r as [data e]; cbn [snd] in He; subst e].
  - cbn. rewrite app_nil_r. reflexivity.
  - unfold chunks_data; cbn [map concat fst]; fold (chunks_data rs).
    rewrite xor_stream_app. cbn [app io_copy].
    unfold copy_step, plain_read, StreamWriter_Write, buffer_write. cbv zeta.
    pose proof (xor_stream_length ofb_step o data) as Hl.
    destruct (xor_stream ofb_step o data) as [o1 c] eqn:X. cbn [fst snd] in Hl |- *.
    rewrite Hl, Nat.eqb_refl, Nat.ltb_irrefl.
    destruct (0 <? length data) eqn:Hpos.
    + rewrite Nat.eqb_refl, IH, app_assoc. reflexivity.
    + assert (data = []) as -> by (destruct data; [reflexivity|discriminate]).
      cbn in X. injection X as <- <-. rewrite IH. reflexivity.
Qed.

Lemma io_copy_plain_encrypt_last (d : list byte) (e : goerr) (rest : list read_resp)
  (o : ofb) (acc : list byte) :
  io_copy plain_read (StreamWriter_Write buffer_write) ((d, Some e) :: rest) tt (o, acc) =
  (tt, (fst (xor_stream ofb_step o d), acc ++ snd (xor_stream ofb_step o d)),
   match e with ErrEOF => None | _ => Some e end).
Proof.
  cbn [io_copy]. unfold copy_step, plain_read, StreamWriter_Write, buffer_write. cbv zeta.
  pose proof (xor_stream_length ofb_step o d) as Hl.
  destruct (xor_stream ofb_step o d) as [o1 c] eqn:X. cbn [fst snd] in Hl |- *.
  rewrite Hl, Nat.eqb_refl, Nat.ltb_irrefl.
  destruct (0 <? length d) eqn:Hpos.
  - rewrite Nat.eqb_refl. destruct e; reflexivity.
  - assert (d = []) as -> by (destruct d; [reflexivity|discriminate]).
    cbn in X. injection X as <- <-. rewrite app_nil_r. destruct e; reflexivity.
Qed.

Lemma io_copy_plain_decrypt_prefix (src1 : list read_resp) :
  Forall (fun r => snd r = None) src1 ->
  forall tl o acc,
  io_copy (StreamReader_Read plain_read) buffer_write (src1 ++ tl) (o, tt) acc =
  io_copy (StreamReader_Read plain_read) buffer_write tl
    (fst (xor_stream ofb_step o (chunks_data src1)), tt)
    (acc ++ snd (xor_stream ofb_step o (chunks_data src1))).
Proof.
  induction 1 as [|r rs He Hrs IH]; intros tl o acc;
    [|destruct r as [data e]; cbn [snd] in He; subst e].
  - cbn. rewrite app_nil_r. reflexivity.
  - unfold chunks_data; cbn [map concat fst]; fold (chunks_data rs).
    rewrite xor_stream_app. cbn [app io_copy].
    unfold copy_step, plain_read, StreamReader_Read, buffer_write. cbv zeta.
    pose proof (xor_stream_length ofb_step o data) as Hl.
    destruct (xor_stream ofb_step o data) as [o1 c] eqn:X. cbn [fst snd] in Hl |- *.
    rewrite Nat.ltb_irrefl.
    destruct (0 <? length c) eqn:Hpos.
    + rewrite Nat.eqb_refl, IH, app_assoc. reflexivity.
    + assert (data = []) as ->.
      { destruct data; [reflexivity|]. rewrite Hl in Hpos. discriminate. }
      cbn in X. injection X as <- <-. rewrite IH. reflexivity.
Qed.

Lemma io_copy_plain_decrypt_last (d : list byte) (e : goerr) (rest : list read_resp)
  (o : ofb) (acc : list byte) :
  io_copy (StreamReader_Read plain_read) buffer_write ((d, Some e) :: rest) (o, tt) acc =
  ((fst (xor_stream ofb_step o d), tt), acc ++ snd (xor_stream ofb_step o d),
   match e with ErrEOF => None | _ => Some e end).
Proof.
  cbn [io_copy]. unfold copy_step, plain_read, StreamReader_Read, buffer_write. cbv zeta.
  destruct (xor_stream ofb_step o d) as [o1 c] eqn:X. cbn [fst snd].
  rewrite Nat.ltb_irrefl.
  destruct (0 <? length c) eqn:Hpos.
  - rewrite Nat.eqb_refl. destruct e; reflexivity.
  - assert (c = []) as -> by (destruct c; [reflexivity|discriminate]).
    rewrite app_nil_r. destruct e; reflexivity.
Qed.

(** X13: with a valid key, [stream.Encrypt] from a plain source (one
    without [WriteTo]) into a writer that accepts every byte appends to the
    destination the OFB keystream XOR of all the bytes read, however they
    were split into reads.  A read that returns an error ends
    the copy after its own bytes are encrypted and written: [io.EOF] counts
    as success, any other error is returned wrapped, and later reads are
    never made. *)
Theorem stream_Encrypt_plain_source (P : Primitives) (key : list byte)
  (Hkey : length key = 16 \/ length key = 24 \/ length key = 32) :
  let o := newOFB (aes_block P key) (repeat zero_byte BlockSize) in
  (forall src acc, Forall (fun r => snd r = None) src ->
     stream_Encrypt P plain_read src tt buffer_write acc key =
     (tt, acc ++ snd (xor_stream ofb_step o (chunks_data src)), Ok tt)) /\
  (forall src1 d e rest acc, Forall (fun r => snd r = None) src1 ->
     stream_Encrypt P plain_read (src1 ++ (d, Some e) :: rest) tt buffer_write acc key =
     (tt, acc ++ snd (xor_stream ofb_step o (chunks_data src1 ++ d)),
      match e with ErrEOF => Ok tt | _ => Err (ErrWrap "copy for ecryption" e) end)).
Proof.
  intros o. unfold stream_Encrypt. rewrite (aes_NewCipher_valid P key Hkey). fold o.
  split.
  - intros src acc Hsrc.
    rewrite <- (app_nil_r src), io_copy_plain_encrypt_prefix by exact Hsrc.
    rewrite app_nil_r. reflexivity.
  - intros src1 d e rest acc Hsrc.
    rewrite io_copy_plain_encrypt_prefix, io_copy_plain_encrypt_last by exact Hsrc.
    rewrite xor_stream_app. cbv beta iota zeta. cbn [fst snd]. rewrite app_assoc.
    destruct e; reflexivity.
Qed.

(** X14: the same for [stream.Decrypt] into a writer without [ReadFrom]
    that accepts every byte (as the signer [DecryptFile] passes): the
    destination receives the keystream
    XOR of all the bytes read; a read error ends the copy after its bytes
    are decrypted and written, [io.EOF] counts as success and any other error
    is returned under "copy for decryption". *)
Theorem stream_Decrypt_plain_source (P : Primitives) (key : list byte)
  (Hkey : length key = 16 \/ length key = 24 \/ length key = 32) :
  let o := newOFB (aes_block P key) (repeat zero_byte BlockSize) in
  (forall src acc, Forall (fun r => snd r = None) src ->
     stream_Decrypt P plain_read src tt buffer_write acc key =
     (tt, acc ++ snd (xor_stream ofb_step o (chunks_data src)), Ok tt)) /\
  (forall src1 d e rest acc, Forall (fun r => snd r = None) src1 ->
     stream_Decrypt P plain_read (src1 ++ (d, Some e) :: rest) tt buffer_write acc key =
     (tt, acc ++ snd (xor_stream ofb_step o (chunks_data src1 ++ d)),
      match e with ErrEOF => Ok tt | _ => Err (ErrOpaque "copy for decryption" e) end)).
Proof.
  intros o. unfold stream_Decrypt. rewrite (aes_NewCipher_valid P key Hkey). fold o.
  split.
  - intros src acc Hsrc.
    rewrite <- (app_nil_r src), io_copy_plain_decrypt_prefix by exact Hsrc.
    rewrite app_nil_r. reflexivity.
  - intros src1 d e rest acc Hsrc.
    rewrite io_copy_plain_decrypt_prefix, io_copy_plain_decrypt_last by exact Hsrc.
    rewrite xor_stream_app. cbv beta iota zeta. cbn [fst snd]. rewrite app_assoc.
    destruct e; reflexivity.
Qed.

(** ** [encrypt.File] and [encrypt.DecryptFile] *)

(** [io.Copy] over [src1 ++ t] depends on [t] only through its own copy. *)
Lemma io_copy_app_congr {S W} (rd : S -> read_resp -> S * read_resp)
  (wr : W -> list byte -> W * (nat * option goerr)) (t1 t2 : list read_resp)
  (Ht : forall st w, io_copy rd wr t1 st w = io_copy rd wr t2 st w) :
  forall src1 st w, io_copy rd wr (src1 ++ t1) st w = io_copy rd wr (src1 ++ t2) st w.
Proof.
  induction src1 as [|r src1 IH]; intros st w; [apply Ht|].
  cbn [app io_copy]. destruct (copy_step rd wr st w r) as [[st' w'] [|e]]; [apply IH|reflexivity].
Qed.

(** A [StreamSigner] hands on a failed read as zero bytes and the error. *)
Lemma io_copy_signer_error {W} (wr : W -> list byte -> W * (nat * option goerr))
  (d : list byte) (e : goerr) (rest : list read_resp) (st : StreamSigner) (w : W) :
  io_copy Signer_Read wr ((d, Some e) :: rest) st w =
  io_copy Signer_Read wr [([], Some e)] st w.
Proof. cbn [io_copy]. unfold copy_step, Signer_Read. cbn. destruct e; reflexivity. Qed.

Lemma io_copy_signer_eof {W} (wr : W -> list byte -> W * (nat * option goerr))
  (st : StreamSigner) (w : W) :
  io_copy Signer_Read wr [([], Some ErrEOF)] st w = io_copy Signer_Read wr [] st w.
Proof. reflexivity. Qed.

Lemma stream_Encrypt_signer_congr (P : Primitives) {W} (src src' : list read_resp)
  (Hc : forall (wr : ofb * W -> list byte -> (ofb * W) * (nat * option goerr)) st w,
     io_copy Signer_Read wr src st w = io_copy Signer_Read wr src' st w)
  (st : StreamSigner) (wr : W -> list byte -> W * (nat * option goerr)) (dst : W)
  (key : list byte) :
  stream_Encrypt P Signer_Read src st wr dst key = stream_Encrypt P Signer_Read src' st wr dst key.
Proof. unfold stream_Encrypt. destruct (aes_NewCipher P key); [rewrite Hc|]; reflexivity. Qed.

Lemma File_src_congr (P : Primitives) (secret : list byte) (src src' : list read_resp)
  (Hc : forall (wr : ofb * list byte -> list byte -> (ofb * list byte) * (nat * option goerr)) st w,
     io_copy Signer_Read wr src st w = io_copy Signer_Read wr src' st w)
  (base name : list byte) (w : World) :
  File P secret src base name w = File P secret src' base name w.
Proof.
  unfold File, mbind.
  destruct (Salt_ w) as [w1 [salt|e]]; [|reflexivity].
  destruct (wrapM _ (createFile P base name) w1) as [w2 [path|e]]; [|reflexivity].
  destruct (Key P secret salt) as [key h].
  rewrite (stream_Encrypt_signer_congr P src src' Hc). reflexivity.
Qed.

(** X15: [File] reads its source through a [StreamSigner], which turns a
    read that returns data together with an error into a read of zero bytes:
    the bytes delivered with the error, and every later response, never
    reach the file or the data hash.  In particular the bytes delivered
    together with [io.EOF] are dropped: [File] behaves as if the source had
    ended before them. *)
Theorem File_drops_data_with_read_error (P : Primitives) (secret : list byte)
  (src1 : list read_resp) (d : list byte) (rest : list read_resp) (base name : list byte)
  (w : World) :
  (forall e, File P secret (src1 ++ (d, Some e) :: rest) base name w =
             File P secret (src1 ++ [([], Some e)]) base name w) /\
  File P secret (src1 ++ (d, Some ErrEOF) :: rest) base name w = File P secret src1 base name w.
Proof.
  split.
  - intros e. apply File_src_congr. intros wr st w0.
    apply io_copy_app_congr. intros st1 w1. apply io_copy_signer_error.
  - apply File_src_congr. intros wr st w0.
    rewrite <- (app_nil_r src1) at 2.
    apply io_copy_app_congr. intros st1 w1.
    rewrite io_copy_signer_error. apply io_copy_signer_eof.
Qed.

(** X16: once the envelope decodes, the ciphertext file exists and the
    secret matches the key hash, [DecryptFile] writes the whole decrypted
    file to the destination before it checks the data hash: the destination
    holds the plaintext even when the call then fails with [ErrHash] (on a
    digest mismatch, or on an empty file). *)
Theorem DecryptFile_writes_before_check (P : Primitives)
  (Hkdf : forall pw salt it n, length (pbkdf2_Key P pw salt it n) = n)
  (secret : list byte) (m m' : Msg) (c acc : list byte) (w : World)
  (Hm : decode false m = Ok m') (Hc : lookup_file (w_files w) (Value m') = Some c)
  (Hkh : hmac_Equal (snd (Key P secret (s m'))) (kh m') = true) :
  let D := snd (xor_stream ofb_step
                  (newOFB (aes_block P (fst (Key P secret (s m')))) (repeat zero_byte BlockSize)) c) in
  DecryptFile P secret m buffer_write acc w =
  (acc ++ D, if 0 <? length c
             then if hmac_Equal (Hash P D) (dh m') then Ok tt else Err ErrHash
             else Err ErrHash).
Proof.
  intros D. unfold DecryptFile. rewrite Hm, Hc.
  unfold D in *. clear D.
  destruct (Key P secret (s m')) as [key h] eqn:HK. cbn [fst snd] in Hkh |- *.
  assert (Hk : length key = aesKeyLength) by (unfold Key in HK; injection HK as <- _; apply Hkdf).
  rewrite Hkh. cbn [negb].
  unfold stream_Decrypt. rewrite aes_NewCipher_32 by exact Hk.
  change (NewStreamSigner false true) with (mkSigner None (Some (mkShake [] 0)) false false).
  cbv zeta.
  destruct (file_reads_spec c) as [Hf1 Hf2].
  rewrite io_copy_decrypt_sign by exact Hf1. rewrite Hf2.
  cbn [orb app].
  unfold WriterHashSum, signerHash, shake_Read.
  cbn [sh_absorbed sh_squeezed snd fst wHash wDone].
  destruct (0 <? length c); cbn -[hmac_Equal xor_stream hashLength]; [|reflexivity].
  unfold Hash.
  destruct (hmac_Equal _ (dh m')); reflexivity.
Qed.

(** ** Digests of a [StreamSigner] *)

(** X17: the digest methods of [StreamSigner] read from the hash state
    itself: a second [ReaderHashSum] (or [WriterHashSum]) returns the next 32
    bytes of the SHAKE256 output, not the digest again.  For an extendable
    output function the two digests are the first 64 output bytes. *)
Theorem signer_digest_twice (P : Primitives)
  (Hxof : forall x n k, firstn n (shake256 P x (n + k)) = shake256 P x n)
  (x : list byte) (sg : StreamSigner) :
  (rHash sg = Some (mkShake x 0) -> rDone sg = true ->
   exists d1 d2, snd (ReaderHashSum P sg) = Ok d1 /\
     snd (ReaderHashSum P (fst (ReaderHashSum P sg))) = Ok d2 /\
     d1 = shake256 P x hashLength /\ d1 ++ d2 = shake256 P x (2 * hashLength)) /\
  (wHash sg = Some (mkShake x 0) -> wDone sg = true ->
   exists d1 d2, snd (WriterHashSum P sg) = Ok d1 /\
     snd (WriterHashSum P (fst (WriterHashSum P sg))) = Ok d2 /\
     d1 = shake256 P x hashLength /\ d1 ++ d2 = shake256 P x (2 * hashLength)).
Proof.
  assert (Hsplit : shake256 P x hashLength ++
                   skipn hashLength (shake256 P x (hashLength + hashLength)) =
                   shake256 P x (2 * hashLength)).
  { rewrite <- (Hxof x hashLength hashLength), firstn_skipn. reflexivity. }
  destruct sg as [rh wh rd wd].
  split; intros Hh Hd; cbn in Hh, Hd; subst.
  - unfold ReaderHashSum, signerHash, shake_Read.
    cbn [rHash rDone negb sh_absorbed sh_squeezed fst snd skipn Nat.add].
    eexists _, _. split; [reflexivity|]. split; [reflexivity|]. split; [reflexivity|].
    exact Hsplit.
  - unfold WriterHashSum, signerHash, shake_Read.
    cbn [wHash wDone negb sh_absorbed sh_squeezed fst snd skipn Nat.add].
    eexists _, _. split; [reflexivity|]. split; [reflexivity|]. split; [reflexivity|].
    exact Hsplit.
Qed.

(** X18: [DecryptFile] leaves the destination untouched unless the envelope
    decodes, the ciphertext file exists and the secret matches the key hash:
    it fails with the decoding error, with the wrapped [ErrNotExist], or with
    [ErrSecret], in that order, before writing anything. *)
Theorem DecryptFile_checks_before_writing (P : Primitives) (secret : list byte) (m : Msg)
  {W : Type} (wr : W -> list byte -> W * (nat * option goerr)) (dst : W) (w : World) :
  (forall e, decode false m = Err e -> DecryptFile P secret m wr dst w = (dst, Err e)) /\
  (forall m', decode false m = Ok m' -> lookup_file (w_files w) (Value m') = None ->
     DecryptFile P secret m wr dst w =
     (dst, Err (ErrWrap "open file for decryption" ErrNotExist))) /\
  (forall m' c, decode false m = Ok m' -> lookup_file (w_files w) (Value m') = Some c ->
     hmac_Equal (snd (Key P secret (s m'))) (kh m') = false ->
     DecryptFile P secret m wr dst w = (dst, Err ErrSecret)).
Proof.
  unfold DecryptFile. split; [|split].
  - intros e He. rewrite He. reflexivity.
  - intros m' Hm Hc. rewrite Hm, Hc. reflexivity.
  - intros m' c Hm Hc Hk. rewrite Hm, Hc.
    destruct (Key P secret (s m')) as [key h]. cbn [snd] in Hk. rewrite Hk. reflexivity.
Qed.

(** X19: when [File] succeeds on a source whose reads all succeed, the file
    named by the envelope's value holds the OFB encryption (zero IV, key
    derived from the secret and the envelope's salt) of exactly the bytes
    read, so it has their length, and the envelope's data hash is the hex
    SHAKE256 digest of those bytes. *)
Theorem File_stores_ciphertext (P : Primitives) (secret : list byte) (src : list read_resp)
  (base name : list byte) (w w' : World) (m : Msg)
  (Hsrc : Forall (fun r => snd r = None) src)
  (HF : File P secret src base name w = (w', Ok m)) :
  let data := chunks_data src in
  let ct := snd (xor_stream ofb_step
                   (newOFB (aes_block P (fst (Key P secret (s m)))) (repeat zero_byte BlockSize))
                   data) in
  lookup_file (w_files w') (Value m) = Some ct /\ length ct = length data /\
  DataHash m = hex_EncodeToString (Hash P data).
Proof.
  intros data ct. unfold ct, data; clear ct data.
  destruct (File_inv P secret src base name w w' m HF)
    as (salt & path & sg & contents & dh0 & w2 & HE & HR & -> & ->).
  cbn [encode msg_raw s Value DataHash dh w_files].
  unfold stream_Encrypt in HE.
  destruct (aes_NewCipher P (fst (Key P secret salt))) as [blk|e] eqn:HC; [|discriminate HE].
  pose proof (aes_NewCipher_inv _ _ _ HC) as ->.
  change (NewStreamSigner true false) with (mkSigner (Some (mkShake [] 0)) None false false) in HE.
  rewrite io_copy_sign_encrypt in HE by exact Hsrc.
  cbv beta iota zeta in HE. injection HE as <- <-.
  unfold ReaderHashSum in HR. cbn [rDone rHash orb] in HR.
  destruct (0 <? length (chunks_data src)); [|discriminate HR].
  cbn [negb sh_absorbed sh_squeezed snd fst skipn Nat.add app] in HR. injection HR as <-.
  split; [apply lookup_set_file|split; [apply xor_stream_length|reflexivity]].
Qed.

(** ** Instances of the further properties *)


Lemma firstn_app_repeat (a : byte) (n : nat) : forall (x : list byte) (m1 m2 : nat),
  n <= m1 -> n <= m2 -> firstn n (x ++ repeat a m1) = firstn n (x ++ repeat a m2).
Proof.
  induction n as [|n IH]; intros x m1 m2 H1 H2; [reflexivity|].
  destruct x as [|y x].
  - destruct m1 as [|m1]; [lia|]. destruct m2 as [|m2]; [lia|].
    cbn [app repeat firstn]. f_equal. apply (IH []); lia.
  - cbn [app firstn]. f_equal. apply IH; lia.
Qed.

Lemma toy_shake_prefix : forall x n k, firstn n (shake256 toyP x (n + k)) = shake256 toyP x n.
Proof.
  intros x n k. cbn [shake256 toyP]. unfold toy_shake.
  rewrite firstn_firstn, Nat.min_l by lia. apply firstn_app_repeat; lia.
Qed.

Lemma createFile_never_overwrites_witness :
  exists path, snd ex_create_run = Ok path /\
    lookup_file (w_files ex_world_taken) path = None /\
    lookup_file (w_files (fst ex_create_run)) path = Some [].
Proof.
  destruct (createFile_never_overwrites toyP ex_dir [] ex_world_taken
              (fst ex_create_run) (snd ex_create_run)) as [H _].
  - vm_compute. reflexivity.
  - exists (match snd ex_create_run with Ok p => p | Err _ => [] end).
    assert (E : snd ex_create_run = Ok (match snd ex_create_run with Ok p => p | Err _ => [] end))
      by (vm_compute; reflexivity).
    destruct (H _ E) as (H1 & H2 & _). split; [exact E|split; assumption].
Defined.


Lemma createFile_random_name_witness :
  exists path nm, snd ex_create_run = Ok path /\ path = toy_join ex_dir nm /\
    length nm = 2 * fileNameSize /\ lower_hex nm.
Proof.
  set (path := match snd ex_create_run with Ok p => p | Err _ => [] end).
  destruct (createFile_random_name toyP ex_dir ex_world_taken (fst ex_create_run) path)
    as (nm & H1 & H2 & H3).
  - vm_compute. reflexivity.
  - exists path, nm. split; [vm_compute; reflexivity|]. split; [exact H1|split; assumption].
Defined.

Lemma File_keeps_existing_files_witness :
  lookup_file (w_files (fst (File toyP ex_secret ex_src ex_dir [] ex_world_taken)))
    (toy_join ex_dir ex_data_name) = Some (list_byte_of_string "old").
Proof.
  apply (File_keeps_existing_files toyP ex_secret ex_src ex_dir [] ex_world_taken
           (fst (File toyP ex_secret ex_src ex_dir [] ex_world_taken))
           (snd (File toyP ex_secret ex_src ex_dir [] ex_world_taken))).
  - vm_compute. reflexivity.
  - vm_compute. reflexivity.
Defined.

Lemma text_cipher_roundtrip_any_key_witness :
  exists c, text_Encrypt toyP ex_plain ex_key16 ex_world =
    (mkWorld (w_files ex_world) (skipn BlockSize (w_rand ex_world)), Ok c) /\
    length c = BlockSize + length ex_plain /\ text_Decrypt toyP c ex_key16 = Ok ex_plain.
Proof.
  apply (text_cipher_roundtrip_any_key toyP ex_key16 ex_plain ex_world).
  - left. reflexivity.
  - discriminate.
  - apply Nat.leb_le. vm_compute. reflexivity.
Defined.

Lemma invalid_key_refused_witness :
  text_Encrypt toyP ex_plain ex_bad_key ex_world =
  (ex_world, Err (ErrWrap "new encrypt cipher" (ErrKeySize 5))) /\
  stream_Encrypt toyP plain_read ex_src tt buffer_write [] ex_bad_key =
  (tt, [], Err (ErrWrap "ecrypt cipher" (ErrKeySize 5))).
Proof.
  destruct (invalid_key_refused toyP ex_bad_key ltac:(discriminate) ltac:(discriminate)
              ltac:(discriminate)) as (H1 & _ & H3 & _).
  split; [apply (H1 ex_plain ex_world); discriminate | apply H3].
Defined.


Lemma Limit_sequence_keeps_quota_witness :
  let st' := fold_left (fun s0 v0 => fst (Limit s0 v0)) [5; 100; -3]%Z (mkStorage ex_dir 100 0) in
  (limit st' <= Size st')%Z /\ Size st' = 100%Z /\ Dir st' = ex_dir.
Proof.
  apply (Limit_sequence_keeps_quota [5; 100; -3]%Z (mkStorage ex_dir 100 0)).
  cbn. lia.
Defined.

Lemma Limit_release_witness :
  Limit (mkStorage ex_dir 100 15) (-5) = (mkStorage ex_dir 100 10, Ok tt).
Proof.
  apply (Limit_release (mkStorage ex_dir 100 10) (mkStorage ex_dir 100 15) 5);
    try (unfold is_int64; cbn; lia).
  vm_compute. reflexivity.
Defined.

Lemma initLimits_info_error_witness :
  initLimits (mkStorage ex_dir 1 0) (fun _ => Ok ([regular "a" 100] ++ ex_bad_entry :: []))
  = (mkStorage ex_dir (int64_wrap (Z.shiftl 1 20))
               (int64_wrap (0 + nondir_size_sum [regular "a" 100])), Err ErrNotExist).
Proof.
  apply (initLimits_info_error (mkStorage ex_dir 1 0) _ [regular "a" 100] ex_bad_entry []
           ErrNotExist).
  - unfold is_int64; cbn; lia.
  - reflexivity.
  - constructor; [intros _; eexists; reflexivity|constructor].
  - reflexivity.
  - reflexivity.
Defined.

Lemma msg_decode_encode_lower_witness :
  exists m', decode true ex_hex_msg = Ok m' /\ encode true m' = m' /\
    Salt m' = Salt ex_hex_msg /\ KeyHash m' = KeyHash ex_hex_msg /\
    DataHash m' = DataHash ex_hex_msg /\ Value m' = Value ex_hex_msg.
Proof.
  apply msg_decode_encode_lower.
  - split; [repeat constructor; cbn; tauto|exists 2; reflexivity].
  - split; [repeat constructor; cbn; tauto|exists 1; reflexivity].
  - split; [constructor|exists 0; reflexivity].
  - intros _. split; [repeat constructor; cbn; tauto|exists 2; reflexivity].
Defined.

Lemma stream_Encrypt_plain_source_witness :
  stream_Encrypt toyP plain_read
    [(list_byte_of_string "abc", None); (list_byte_of_string "de", Some ErrEOF);
     (list_byte_of_string "zz", None)] tt buffer_write [] ex_key =
  (tt, [] ++ snd (xor_stream ofb_step
                    (newOFB (aes_block toyP ex_key) (repeat zero_byte BlockSize))
                    (chunks_data [(list_byte_of_string "abc", None)] ++ list_byte_of_string "de")),
   Ok tt).
Proof.
  destruct (stream_Encrypt_plain_source toyP ex_key ltac:(right; right; reflexivity)) as [_ H].
  apply (H [(list_byte_of_string "abc", None)] (list_byte_of_string "de") ErrEOF
           [(list_byte_of_string "zz", None)] []).
  repeat constructor.
Defined.

Lemma stream_Decrypt_plain_source_witness :
  stream_Decrypt toyP plain_read
    [(list_byte_of_string "abc", None); (list_byte_of_string "de", Some ErrUnexpectedEOF)]
    tt buffer_write [] ex_key =
  (tt, [] ++ snd (xor_stream ofb_step
                    (newOFB (aes_block toyP ex_key) (repeat zero_byte BlockSize))
                    (chunks_data [(list_byte_of_string "abc", None)] ++ list_byte_of_string "de")),
   Err (ErrOpaque "copy for decryption" ErrUnexpectedEOF)).
Proof.
  destruct (stream_Decrypt_plain_source toyP ex_key ltac:(right; right; reflexivity)) as [_ H].
  apply (H [(list_byte_of_string "abc", None)] (list_byte_of_string "de") ErrUnexpectedEOF [] []).
  repeat constructor.
Defined.

Lemma DecryptFile_writes_before_check_witness :
  DecryptFile toyP ex_secret ex_file_msg_tampered buffer_write [] ex_file_world =
  (chunks_data ex_src, Err ErrHash).
Proof.
  rewrite (DecryptFile_writes_before_check toyP toy_kdf_length ex_secret ex_file_msg_tampered
             (match decode false ex_file_msg_tampered with Ok m => m | Err _ => ex_file_msg end)
             (match lookup_file (w_files ex_file_world)
                      (Value ex_file_msg_tampered) with Some c => c | None => [] end)
             [] ex_file_world).
  - vm_compute. reflexivity.
  - vm_compute. reflexivity.
  - vm_compute. reflexivity.
  - vm_compute. reflexivity.
Defined.

Lemma signer_digest_twice_witness :
  exists d1 d2,
    snd (ReaderHashSum toyP (mkSigner (Some (mkShake ex_plain 0)) None true false)) = Ok d1 /\
    snd (ReaderHashSum toyP (fst (ReaderHashSum toyP
          (mkSigner (Some (mkShake ex_plain 0)) None true false)))) = Ok d2 /\
    d1 = shake256 toyP ex_plain hashLength /\ d1 ++ d2 = shake256 toyP ex_plain (2 * hashLength).
Proof.
  apply (proj1 (signer_digest_twice toyP toy_shake_prefix ex_plain
                  (mkSigner (Some (mkShake ex_plain 0)) None true false))); reflexivity.
Defined.

Lemma File_stores_ciphertext_witness :
  let data := chunks_data ex_src in
  let ct := snd (xor_stream ofb_step
                   (newOFB (aes_block toyP (fst (Key toyP ex_secret (s ex_file_msg))))
                           (repeat zero_byte BlockSize))
                   data) in
  lookup_file (w_files ex_file_world) (Value ex_file_msg) = Some ct /\ length ct = length data /\
  DataHash ex_file_msg = hex_EncodeToString (Hash toyP data).
Proof.
  apply (File_stores_ciphertext toyP ex_secret ex_src ex_dir ex_data_name ex_world).
  - repeat constructor.
  - vm_compute. reflexivity.
Defined.
